(** * Escort Mission: grid map, path simplification, combat and boss state machine

    A shallow embedding of the game core of [escort-mission] (Go):
    the level map used for A* path planning ([LevelMap], [Neighbours],
    [simplifyPath]), vector normalisation, the fire trigger ([Shoot]),
    the per-tick [GameScreen.Update] and the boss state machine
    ([Boss.Update]). *)

From Stdlib Require Import String ZArith List Bool Lia PrimFloat.
Import ListNotations.
Open Scope Z_scope.

(** ** Go's [int] (64 bit, two's complement) *)

Definition int_min : Z := - 2 ^ 63.
Definition int_max : Z := 2 ^ 63 - 1.

(** Arithmetic on [int] wraps around silently. *)
Definition wrap (z : Z) : Z := (z + 2 ^ 63) mod 2 ^ 64 - 2 ^ 63.

(** ** [image.Point] *)

Record Point : Type := Pt { X : Z; Y : Z }.

(** [p.Add(q)] *)
Definition Add (p q : Point) : Point := Pt (wrap (X p + X q)) (wrap (Y p + Y q)).

(** [p.Sub(q)] *)
Definition Sub (p q : Point) : Point := Pt (wrap (X p - X q)) (wrap (Y p - Y q)).

(** [p == q] on points *)
Definition Point_eqb (p q : Point) : bool := (X p =? X q) && (Y p =? Y q).

(** ** Computations that index the level map

    A computation yields the cells it indexed, in order, and its result;
    [None] is the runtime panic "index out of range" raised by a slice
    index outside [0, len). *)

Definition Indexed (A : Type) : Type := (list Point * option A)%type.

Definition ret {A : Type} (a : A) : Indexed A := ([], Some a).

Definition bind {A B : Type} (c : Indexed A) (k : A -> Indexed B) : Indexed B :=
  match c with
  | (tr, None) => (tr, None)
  | (tr, Some a) => let (tr', r) := k a in (tr ++ tr', r)
  end.

Notation "x <- c ;; k" := (bind c (fun x => k))
  (at level 61, c at next level, right associativity).

Definition result {A : Type} (c : Indexed A) : option A := snd c.

(** Go's [a && b]: [b] is evaluated only when [a] is true. *)
Definition andThen (a b : Indexed bool) : Indexed bool :=
  x <- a ;; if x then b else ret false.

(** [for _, o := range l { s = body(s, o) }] *)
Fixpoint forRange {A S : Type} (l : list A) (s : S) (body : S -> A -> Indexed S)
  : Indexed S :=
  match l with
  | [] => ret s
  | o :: l' => s' <- body s o ;; forRange l' s' body
  end.

(** ** [LevelMap] *)

(** [type LevelMap [][]int]: rows of cells, [m[y][x]]. *)
Definition LevelMap : Type := list (list Z).

(** [s[i]] on a slice: defined for [0 <= i < len(s)] only. *)
Definition index {A : Type} (s : list A) (i : Z) : option A :=
  if i <? 0 then None else nth_error s (Z.to_nat i).

(** The value stored at [m[p.Y][p.X]], when both indices are in range. *)
Definition cellAt (m : LevelMap) (p : Point) : option Z :=
  match index m (Y p) with
  | Some row => index row (X p)
  | None => None
  end.

Definition inBounds (m : LevelMap) (p : Point) : bool :=
  match cellAt m p with Some _ => true | None => false end.

(** The cell is inside the grid and holds 0. *)
Definition freeCell (m : LevelMap) (p : Point) : bool :=
  match cellAt m p with Some v => v =? 0 | None => false end.

(** [CreateMap(w, h)]: [make] panics on a negative length. *)
Definition CreateMap (w h : Z) : option LevelMap :=
  if h <? 0 then None
  else if (0 <? h) && (w <? 0) then None
  else Some (repeat (repeat 0 (Z.to_nat w)) (Z.to_nat h)).

(** [s[i] = v] on a slice that is known to hold index [i]. *)
Fixpoint store {A : Type} (s : list A) (i : nat) (v : A) : list A :=
  match s, i with
  | [], _ => []
  | _ :: s', O => v :: s'
  | a :: s', S i' => a :: store s' i' v
  end.

(** [m.SetObstacle(x, y)]: [m[y][x] = 1], panicking out of range. *)
Definition SetObstacle (m : LevelMap) (x y : Z) : option LevelMap :=
  match index m y with
  | Some row =>
      match index row x with
      | Some _ => Some (store m (Z.to_nat y) (store row (Z.to_nat x) 1))
      | None => None
      end
  | None => None
  end.

(** [m.isFreeAt(p)]: [m[p.Y][p.X] == 0], an unchecked index. *)
Definition isFreeAt (m : LevelMap) (p : Point) : Indexed bool :=
  ([p], match cellAt m p with Some v => Some (v =? 0) | None => None end).

Definition offsets : list Point :=
  [ Pt 0 (-1)   (* North *)
  ; Pt 1 0      (* East *)
  ; Pt 0 1      (* South *)
  ; Pt (-1) 0   (* West *) ].

Definition offsetsDiag : list Point :=
  [ Pt 1 (-1)    (* NorthEast *)
  ; Pt 1 1       (* SouthEast *)
  ; Pt (-1) 1    (* SouthWest *)
  ; Pt (-1) (-1) (* NorthWest *) ].

(** Body of the first loop of [Neighbours]: a diagonal is appended when the
    diagonal cell and the two orthogonal cells next to it are free. *)
Definition diagBody (m : LevelMap) (p : Point) (neighbours : list Point) (o : Point)
  : Indexed (list Point) :=
  let q := Add p o in
  let q1 := Add p (Pt 0 (Y o)) in
  let q2 := Add p (Pt (X o) 0) in
  c <- andThen (andThen (isFreeAt m q) (isFreeAt m q1)) (isFreeAt m q2) ;;
  if c then ret (neighbours ++ [q]) else ret neighbours.

(** Body of the second loop of [Neighbours]. *)
Definition orthBody (m : LevelMap) (p : Point) (neighbours : list Point) (o : Point)
  : Indexed (list Point) :=
  let q := Add p o in
  c <- isFreeAt m q ;;
  if c then ret (neighbours ++ [q]) else ret neighbours.

(** [m.Neighbours(p)] *)
Definition Neighbours (m : LevelMap) (p : Point) : Indexed (list Point) :=
  neighbours <- forRange offsetsDiag [] (diagBody m p) ;;
  forRange offsets neighbours (orthBody m p).

(** A rectangular grid of [h] rows of [w] cells, as [CreateMap] builds it;
    a slice length always fits an [int]. *)
Definition rectangular (m : LevelMap) (w h : Z) : Prop :=
  Z.of_nat (length m) = h /\ Forall (fun row => Z.of_nat (length row) = w) m
  /\ w <= int_max /\ h <= int_max.

(** The eight offsets around a cell. *)
Definition offsets8 : list Point := offsetsDiag ++ offsets.

(** Every cell around [p] is inside the grid. *)
Definition interior (m : LevelMap) (p : Point) : bool :=
  forallb (fun o => inBounds m (Add p o)) offsets8.

(** The condition under which [Neighbours] keeps the diagonal offset [o]. *)
Definition corridor (m : LevelMap) (p o : Point) : bool :=
  freeCell m (Add p o) && freeCell m (Add p (Pt 0 (Y o)))
  && freeCell m (Add p (Pt (X o) 0)).

(** ** [simplifyPath] *)

(** The loop of [simplifyPath] from index [i] on: [path] is the rest of the
    slice, [prev] the last direction seen, [result] the points kept so far. *)
Fixpoint simplifyLoop (path : list Point) (prev : Point) (res : list Point)
  : list Point :=
  match path with
  | [] => res
  | p :: rest =>
      match rest with
      | [] => simplifyLoop rest prev (res ++ [p])
      | q :: _ =>
          let next := Sub q p in
          if Point_eqb prev next then simplifyLoop rest prev res
          else simplifyLoop rest next (res ++ [p])
      end
  end.

(** [simplifyPath(path)] *)
Definition simplifyPath (path : list Point) : list Point :=
  simplifyLoop path (Pt 0 0) [].

(** One step of a path over the grid: [q] is one of the eight cells around
    [p], as [Neighbours] yields them. *)
Definition kingStep (p q : Point) : bool :=
  existsb (fun o => Point_eqb q (Pt (X p + X o) (Y p + Y o))) offsets8.

(** A grid cell: both coordinates are non-negative [int]s. *)
Definition isCell (p : Point) : bool :=
  (0 <=? X p) && (X p <=? int_max) && (0 <=? Y p) && (Y p <=? int_max).

(** Every point is a grid cell and every step goes to a surrounding cell. *)
Fixpoint gridPath (path : list Point) : bool :=
  match path with
  | [] => true
  | p :: rest =>
      isCell p && match rest with
                  | [] => true
                  | q :: _ => kingStep p q
                  end && gridPath rest
  end.


(** The empty 3x3 grid, [CreateMap(3, 3)]. *)
Definition grid3 : LevelMap := [[0; 0; 0]; [0; 0; 0]; [0; 0; 0]].

(** [p] moved [k] times by the offset [d]. *)
Definition ray (p d : Point) (k : Z) : Point := Pt (X p + k * X d) (Y p + k * Y d).

(** No step of the path repeats the direction of the step before it, [prev]
    standing for the direction before the first step. *)
Fixpoint turning (prev : Point) (path : list Point) : Prop :=
  match path with
  | [] => True
  | p :: rest =>
      match rest with
      | [] => True
      | q :: _ => Point_eqb prev (Sub q p) = false /\ turning (Sub q p) rest
      end
  end.

(** The shape of a simplified grid path: straight runs along one of the eight
    directions, each run in another direction than the one before. *)
Inductive runs : Point -> list Point -> Prop :=
| runs_nil d : runs d []
| runs_one d p : runs d [p]
| runs_cons d d' k p o rest :
    In d' offsets8 -> d' <> d -> 1 <= k -> o = ray p d' k ->
    isCell p = true -> isCell o = true ->
    runs d' (o :: rest) -> runs d (p :: o :: rest).

(** ** Vectors *)

(** [type Coord struct{ X, Y float64 }] *)
Record Coord : Type := Co { CoordX : float; CoordY : float }.

(** [math.Pow(x, 2)]: the special cases of [math.Pow] that apply to the
    exponent 2, then the square that its multiplication loop computes. *)
Definition Pow2 (x : float) : float :=
  if PrimFloat.eqb x 1 then 1%float
  else if PrimFloat.is_nan x then PrimFloat.nan
  else if PrimFloat.eqb x 0 then 0%float
  else if PrimFloat.is_infinity x then PrimFloat.infinity
  else (x * x)%float.

(** [CalcDistance(x1, y1, x2, y2)] *)
Definition CalcDistance (x1 y1 x2 y2 : float) : float :=
  PrimFloat.sqrt (Pow2 (x1 - x2) + Pow2 (y1 - y2))%float.

(** [NormalizeVector(vector)] *)
Definition NormalizeVector (vector : Coord) : Coord :=
  let magnitude := CalcDistance (CoordX vector) (CoordY vector) 0 0 in
  Co (CoordX vector / magnitude)%float (CoordY vector / magnitude)%float.

(** A component is NaN or an infinity. *)
Definition invalidFloat (x : float) : bool :=
  PrimFloat.is_nan x || PrimFloat.is_infinity x.

(** ** Audio *)

Inductive Sound : Type :=
| soundMusicBackground | soundGunShot | soundGunReload | soundDogBark
| soundPlayerDies | soundHit1 | soundDryFire
| soundBigZombieDeath1 | soundBigZombieScream | soundBigZombieDeath2.

(** A call on an [*audio.Player]: which player, and which method. *)
Inductive AudioCall : Type := Play | Pause | Rewind.

Inductive AudioEvent : Type :=
| OnSound (s : Sound) (c : AudioCall)
| OnCheckpointVoice (i : Z) (c : AudioCall).

(** [len(g.Voices[voiceCheckpoint])], fixed by [NewGameScreen]. *)
Definition checkpointVoices : Z := 7.

(** ** Entities *)

(** Modelled from the spec: the zombie of zombie.go, which is not among the
    sources. An agent has a hit-points countdown [HitToDie], a behaviour
    state among idle, walking, hit and dead, a movement speed and an
    alive/dead flag; a successful hit decrements [HitToDie] and puts the
    zombie in its hit state; dying removes it from the world. *)
Module Zombie.

Inductive state : Type := zombieIdle | zombieWalking | zombieHit | zombieDead.

Record t : Type := Make
  { HitToDie : Z; State : state; Speed : float; Alive : bool }.

Definition Hit (z : t) : t :=
  Make (wrap (HitToDie z - 1)) zombieHit (Speed z) (Alive z).

Definition Die (z : t) : t :=
  Make (HitToDie z) (State z) (Speed z) false.

Definition setState (z : t) (s : state) : t :=
  Make (HitToDie z) s (Speed z) (Alive z).

Definition setSpeed (z : t) (v : float) : t :=
  Make (HitToDie z) (State z) v (Alive z).

End Zombie.

(** Modelled from the spec: the player states of player.go, which is not
    among the sources. [Shoot] and [Update] name five of them; every other
    state is a [playerOther]. *)
Module Player.

Inductive state : Type :=
| playerShooting | playerReady | playerUnready | playerReload | playerDryFire
| playerOther (tag : nat).

Record t : Type := Make { State : state; Ammo : Z }.

End Player.

(** Modelled from the spec: the movement states of the dog of dog.go, which
    is not among the sources (walking, sniffing, sitting, dead). *)
Module Dog.

Inductive mode : Type := dogWalking | dogSniffing | dogSitting | dogDead.

Record t : Type := Make { Mode : mode }.

Definition mode_eqb (a b : mode) : bool :=
  match a, b with
  | dogWalking, dogWalking | dogSniffing, dogSniffing
  | dogSitting, dogSitting | dogDead, dogDead => true
  | _, _ => false
  end.

End Dog.

(** ** The spatial index (resolv), by its query contract *)

Definition tagMob : string := "mob".
Definition tagCheckpoint : string := "check".
Definition tagEnd : string := "end".

(** [Object.Data]: a [*Zombie] (a reference into the zombies of the game),
    an [int] (the number of a checkpoint), or nothing. *)
Inductive ObjData : Type :=
| DataZombie (ref : nat)
| DataInt (n : Z)
| DataNil.

Record Object : Type := MkObject { Tags : list string; Data : ObjData }.

(** [o.HasTags(tag)] *)
Definition HasTags (o : Object) (tag : string) : bool :=
  existsb (String.eqb tag) (Tags o).

(** A cell of the space with the objects registered in it. *)
Record Cell : Type := MkCell { Objects : list Object }.

(** A non-nil [*Collision]: [Check] returns nil rather than a collision
    without objects, so [collision.Objects[0]] exists. *)
Record Collision : Type := MkCollision { first : Object; others : list Object }.

(** What the space answers to the queries of [Shoot] and [Update] in its
    current arrangement. *)
Module Space.

Record t : Type := Make
  { (** [g.Player.Object.Check(0, 0, tag)] *)
    CheckPlayer : string -> option Collision;
    (** [g.Dog.Object.Check(0, 0, tag)] *)
    CheckDog : string -> option Collision;
    (** [g.Player.Object.Overlaps(o)] *)
    PlayerOverlaps : Object -> bool;
    (** [g.Dog.Object.Overlaps(o)] *)
    DogOverlaps : Object -> bool;
    (** [g.Player.Object.Shape.Intersection(0, 0, o.Shape) != nil] *)
    PlayerIntersects : Object -> bool;
    (** [g.Space.CellsInLine] from the player to the end of the range of fire *)
    CellsInLineOfFire : list Cell }.

End Space.

(** ** [GameScreen] *)

Record GameScreen : Type := MkGameScreen
  { Tick : Z;
    ThePlayer : Player.t;
    TheDog : Dog.t;
    (** the zombies, by reference *)
    Zombies : nat -> Zombie.t;
    TheSpace : Space.t;
    Checkpoint : Z;
    BossDefeated : bool;
    (** the calls made on the audio players so far, oldest first *)
    Audio : list AudioEvent }.

Definition setTick (g : GameScreen) (n : Z) : GameScreen :=
  MkGameScreen n (ThePlayer g) (TheDog g) (Zombies g) (TheSpace g)
    (Checkpoint g) (BossDefeated g) (Audio g).

Definition setPlayer (g : GameScreen) (p : Player.t) : GameScreen :=
  MkGameScreen (Tick g) p (TheDog g) (Zombies g) (TheSpace g)
    (Checkpoint g) (BossDefeated g) (Audio g).

Definition setDog (g : GameScreen) (d : Dog.t) : GameScreen :=
  MkGameScreen (Tick g) (ThePlayer g) d (Zombies g) (TheSpace g)
    (Checkpoint g) (BossDefeated g) (Audio g).

Definition setZombies (g : GameScreen) (zs : nat -> Zombie.t) : GameScreen :=
  MkGameScreen (Tick g) (ThePlayer g) (TheDog g) zs (TheSpace g)
    (Checkpoint g) (BossDefeated g) (Audio g).

Definition setCheckpoint (g : GameScreen) (n : Z) : GameScreen :=
  MkGameScreen (Tick g) (ThePlayer g) (TheDog g) (Zombies g) (TheSpace g)
    n (BossDefeated g) (Audio g).

Definition setBossDefeated (g : GameScreen) (b : bool) : GameScreen :=
  MkGameScreen (Tick g) (ThePlayer g) (TheDog g) (Zombies g) (TheSpace g)
    (Checkpoint g) b (Audio g).

(** A call on an audio player, recorded after the earlier ones. *)
Definition audio (g : GameScreen) (e : AudioEvent) : GameScreen :=
  MkGameScreen (Tick g) (ThePlayer g) (TheDog g) (Zombies g) (TheSpace g)
    (Checkpoint g) (BossDefeated g) (Audio g ++ [e]).

(** The zombie behind the reference [r], replaced by [f] of it. *)
Definition onZombie (g : GameScreen) (r : nat) (f : Zombie.t -> Zombie.t)
  : GameScreen :=
  setZombies g (fun r' => if Nat.eqb r' r then f (Zombies g r) else Zombies g r').

(** ** [Shoot] *)

(** The closure [interruptReload] of [Shoot]. *)
Definition interruptReload (g : GameScreen) : GameScreen :=
  let g := audio g (OnSound soundGunReload Pause) in
  let g := audio g (OnSound soundDryFire Rewind) in
  let g := audio g (OnSound soundDryFire Play) in
  setPlayer g (Player.Make Player.playerDryFire (Player.Ammo (ThePlayer g))).

(** [for _, o := range c.Objects]: the first object tagged as a mob. *)
Fixpoint scanObjects (os : list Object) : option Object :=
  match os with
  | [] => None
  | o :: os' => if HasTags o tagMob then Some o else scanObjects os'
  end.

(** [for _, c := range cells]: the loop returns at the first mob it finds. *)
Fixpoint scanCells (cells : list Cell) : option Object :=
  match cells with
  | [] => None
  | c :: cells' =>
      match scanObjects (Objects c) with
      | Some o => Some o
      | None => scanCells cells'
      end
  end.

(** [Shoot(g)]; [None] is the panic of the type assertion
    [o.Data.( *Zombie)] on an object that carries no zombie. *)
Definition Shoot (g : GameScreen) : option GameScreen :=
  match Player.State (ThePlayer g) with
  | Player.playerShooting | Player.playerReady | Player.playerUnready =>
      Some g (* no-op *)
  | Player.playerReload => Some (interruptReload g)
  | _ =>
      if Player.Ammo (ThePlayer g) <? 1 then Some (interruptReload g)
      else
        let g := audio g (OnSound soundGunShot Rewind) in
        let g := audio g (OnSound soundGunShot Play) in
        let g := setPlayer g (Player.Make Player.playerShooting
                                (wrap (Player.Ammo (ThePlayer g) - 1))) in
        let cells := Space.CellsInLineOfFire (TheSpace g) in
        match scanCells cells with
        | Some o =>
            let g := audio g (OnSound soundHit1 Rewind) in
            let g := audio g (OnSound soundHit1 Play) in
            match Data o with
            | DataZombie r => Some (onZombie g r Zombie.Hit) (* stop at the first zombie *)
            | _ => None
            end
        | None => Some g
        end
  end.

(** The first mob-tagged object along the ordered cells of the line of fire. *)
Definition firstMob (cells : list Cell) : option Object :=
  find (fun o => HasTags o tagMob) (List.concat (map Objects cells)).

(** States in which a click is ignored. *)
Definition ignoresClick (s : Player.state) : bool :=
  match s with
  | Player.playerShooting | Player.playerReady | Player.playerUnready => true
  | _ => false
  end.

(** States in which a click fires the gun when there is ammunition. *)
Definition canFire (s : Player.state) : bool :=
  match s with
  | Player.playerShooting | Player.playerReady | Player.playerUnready
  | Player.playerReload => false
  | _ => true
  end.

(** A space in which nothing touches anything and the line of fire is empty. *)
Definition quietSpace : Space.t :=
  Space.Make (fun _ => None) (fun _ => None) (fun _ => false) (fun _ => false)
    (fun _ => false) [].

(** A walking zombie with three hits left. *)
Definition someZombie : Zombie.t := Zombie.Make 3 Zombie.zombieWalking 1 true.

(** A game screen at tick 0 with the given player and space. *)
Definition screenWith (p : Player.t) (sp : Space.t) : GameScreen :=
  MkGameScreen 0 p (Dog.Make Dog.dogWalking) (fun _ => someZombie) sp 0 false [].

(** ** [GameScreen.Update] *)

Inductive GameState : Type := gameRunning | gameOver | gameWon.

(** The input of one tick and the methods [Update] calls whose code is
    not among the sources. *)
Record Collaborators : Type := MkCollaborators
  { (** [inpututil.IsKeyJustPressed(ebiten.KeyR)] *)
    keyRJustPressed : bool;
    (** [clicked()] *)
    clicked : bool;
    (** [g.Player.Reload(g)] *)
    PlayerReload : GameScreen -> GameScreen;
    (** [g.Player.Update(g)] *)
    PlayerUpdate : GameScreen -> GameScreen;
    (** [g.Dog.Update(g)] *)
    DogUpdate : GameScreen -> GameScreen;
    (** [g.Zombies.Update(g)] *)
    ZombiesUpdate : GameScreen -> GameScreen;
    (** [g.SpawnPoints.Update(g)] *)
    SpawnPointsUpdate : GameScreen -> GameScreen }.

(** The first part of [Update]: input handling and the entity updates. *)
Definition updateEntities (E : Collaborators) (g : GameScreen) : option GameScreen :=
  let g := setTick g (wrap (Tick g + 1)) in
  let g :=
    if keyRJustPressed E then
      match Player.State (ThePlayer g) with
      | Player.playerShooting | Player.playerReload => g
      | _ => PlayerReload E g
      end
    else g in
  match (if clicked E then Shoot g else Some g) with
  | None => None
  | Some g =>
      let g := PlayerUpdate E g in
      let g := DogUpdate E g in
      let g := ZombiesUpdate E g in
      Some (SpawnPointsUpdate E g)
  end.

(** The zombie found at the player touches it. *)
Definition playerCaught (g : GameScreen) : bool :=
  match Space.CheckPlayer (TheSpace g) tagMob with
  | Some collision =>
      Space.PlayerOverlaps (TheSpace g) (first collision)
      && Space.PlayerIntersects (TheSpace g) (first collision)
  | None => false
  end.

(** "Do something special when you find a Checkpoint entity"; [None] is a
    panic: of the type assertion [o.Data.(int)], or of the index into the
    checkpoint voices. *)
Definition reachCheckpoint (g : GameScreen) : option GameScreen :=
  match Space.CheckPlayer (TheSpace g) tagCheckpoint with
  | Some collision =>
      let o := first collision in
      if Space.PlayerOverlaps (TheSpace g) o then
        match Data o with
        | DataInt n =>
            if Checkpoint g <? n then
              let g := setCheckpoint g n in
              let i := wrap (Checkpoint g - 1) in
              if (0 <=? i) && (i <? checkpointVoices) then
                let g := audio g (OnCheckpointVoice i Rewind) in
                Some (audio g (OnCheckpointVoice i Play))
              else None
            else Some g
        | _ => None
        end
      else Some g
  | None => Some g
  end.

(** The player overlaps the End entity. *)
Definition reachedEnd (g : GameScreen) : bool :=
  match Space.CheckPlayer (TheSpace g) tagEnd with
  | Some collision => Space.PlayerOverlaps (TheSpace g) (first collision)
  | None => false
  end.

(** The zombie found at the dog overlaps it. *)
Definition dogCaught (g : GameScreen) : bool :=
  match Space.CheckDog (TheSpace g) tagMob with
  | Some collision => Space.DogOverlaps (TheSpace g) (first collision)
  | None => false
  end.

(** The second part of [Update]: collision detection and response. *)
Definition respondToCollisions (g : GameScreen) : option (GameState * GameScreen) :=
  if playerCaught g then
    let g := audio g (OnSound soundMusicBackground Pause) in
    let g := audio g (OnSound soundMusicBackground Rewind) in
    let g := audio g (OnSound soundPlayerDies Rewind) in
    let g := audio g (OnSound soundPlayerDies Play) in
    Some (gameOver, g) (* return early, no point in continuing, you are dead *)
  else
    match reachCheckpoint g with
    | None => None
    | Some g =>
        if reachedEnd g then Some (gameWon, g)
        else
          let g := if dogCaught g then setDog g (Dog.Make Dog.dogDead) else g in
          if Dog.mode_eqb (Dog.Mode (TheDog g)) Dog.dogDead then
            let g := audio g (OnSound soundMusicBackground Pause) in
            let g := audio g (OnSound soundMusicBackground Rewind) in
            Some (gameOver, g)
          else Some (gameRunning, g)
    end.

(** [g.Update()]; the camera is positioned at the end and is not modelled. *)
Definition Update (E : Collaborators) (g : GameScreen) : option (GameState * GameScreen) :=
  match updateEntities E g with
  | None => None
  | Some g => respondToCollisions g
  end.

(** The indices of the checkpoint voices played, oldest first. *)
Fixpoint voicesPlayed (log : list AudioEvent) : list Z :=
  match log with
  | [] => []
  | OnCheckpointVoice i Play :: log' => i :: voicesPlayed log'
  | _ :: log' => voicesPlayed log'
  end.

(** A collaborator that leaves the checkpoint and its voices alone. *)
Definition keepsCheckpoint (f : GameScreen -> GameScreen) : Prop :=
  forall g, Checkpoint (f g) = Checkpoint g
            /\ voicesPlayed (Audio (f g)) = voicesPlayed (Audio g).

(** ** The boss *)

(** A frame range of the sprite sheet. *)
Record FrameTag : Type := MkFrameTag { From : Z; To : Z }.

Inductive error : Type := errorsNew (msg : string).

Module Boss.

(** [bossAnimationTags]: the tags [Boss.Update] names. *)
Inductive animationTags : Type :=
| bossIdle1 | bossIdle2 | bossIdle3 | bossIdle4
| bossWalking1 | bossWalking2 | bossWalking3
| bossHit1 | bossHit2
| bossDeath1 | bossDeath2 | bossPhase2 | bossRunning.

(** [type Boss struct]: the inner zombie is held by reference. *)
Record t : Type := Make
  { ZombieRef : nat; Daemon : bool; State : animationTags; Frame : Z; Dead : bool }.

Definition setState (z : t) (s : animationTags) : t :=
  Make (ZombieRef z) (Daemon z) s (Frame z) (Dead z).

Definition setFrame (z : t) (f : Z) : t :=
  Make (ZombieRef z) (Daemon z) (State z) f (Dead z).

Definition setDaemon (z : t) (d : bool) : t :=
  Make (ZombieRef z) d (State z) (Frame z) (Dead z).

Definition setDead (z : t) (d : bool) : t :=
  Make (ZombieRef z) (Daemon z) (State z) (Frame z) d.

End Boss.

Import Boss.

(** What the boss takes from its collaborators: the animation of sprite
    frames, the frame ranges of its sprite sheet, the speed of a sprinter
    and the update of the inner zombie. *)
Record BossCollaborators : Type := MkBossCollaborators
  { (** [Animate(frame, tick, frameTag)] *)
    Animate : Z -> Z -> FrameTag -> Z;
    (** [z.Sprite.Meta.FrameTags[state]] *)
    FrameTags : Boss.animationTags -> FrameTag;
    zombieSprinterSpeed : float;
    (** [z.Zombie.Update(g)] *)
    ZombieUpdate : GameScreen -> nat -> GameScreen * option error }.

(** The two switches on [z.HitToDie] and [z.Zombie.State] at the head of
    [Boss.Update]: the animation state they select, [cur] when no case
    applies. *)
Definition selectState (daemon : bool) (hitToDie : Z) (zs : Zombie.state)
    (cur : Boss.animationTags) : Boss.animationTags :=
  if daemon then
    if hitToDie =? 2 then
      match zs with
      | Zombie.zombieHit => bossDeath1
      | Zombie.zombieIdle => bossIdle4
      | Zombie.zombieWalking => bossRunning
      | _ => cur
      end
    else if hitToDie =? 1 then
      match zs with
      | Zombie.zombieHit => bossDeath2
      | _ => cur
      end
    else cur
  else
    if (hitToDie =? 10) || (hitToDie =? 9) || (hitToDie =? 8) then
      match zs with
      | Zombie.zombieIdle => bossIdle1
      | Zombie.zombieWalking => bossWalking1
      | Zombie.zombieHit => bossHit1
      | _ => cur
      end
    else if hitToDie =? 7 then (* transition to bleeding arm *)
      match zs with
      | Zombie.zombieHit => bossHit1
      | Zombie.zombieIdle => bossIdle2
      | Zombie.zombieWalking => bossWalking2
      | _ => cur
      end
    else if (hitToDie =? 6) || (hitToDie =? 5) then
      match zs with
      | Zombie.zombieHit => bossHit2
      | Zombie.zombieIdle => bossIdle2
      | Zombie.zombieWalking => bossWalking2
      | _ => cur
      end
    else if (hitToDie =? 4) || (hitToDie =? 3) then (* transition to 2 bleeding arms *)
      match zs with
      | Zombie.zombieHit => bossHit2
      | Zombie.zombieIdle => bossIdle3
      | Zombie.zombieWalking => bossWalking3
      | _ => cur
      end
    else if hitToDie =? 2 then (* transition to red daemon *)
      match zs with
      | Zombie.zombieHit => bossDeath1
      | Zombie.zombieIdle => bossIdle4
      | Zombie.zombieWalking => bossRunning
      | _ => cur
      end
    else if hitToDie =? 1 then
      match zs with
      | Zombie.zombieHit => bossDeath2
      | _ => cur
      end
    else cur.

(** [z.Die(g)] of the boss *)
Definition BossDie (g : GameScreen) (z : Boss.t) : GameScreen * Boss.t :=
  let g := onZombie g (ZombieRef z) Zombie.Die in
  let z := setDead z true in
  (setBossDefeated g true, z).

(** [z.outterAnimationBasedStateChanges(g)] *)
Definition outterAnimationBasedStateChanges (E : BossCollaborators)
    (g : GameScreen) (z : Boss.t) : GameScreen * Boss.t :=
  let walk g := onZombie g (ZombieRef z) (fun zz => Zombie.setState zz Zombie.zombieWalking) in
  match State z with
  | bossHit1 => (walk g, setState z bossWalking1)
  | bossHit2 => (walk g, setState z bossWalking2)
  | bossDeath1 =>
      let g := audio g (OnSound soundBigZombieDeath1 Play) in
      let z := setDaemon z true in
      let g := onZombie g (ZombieRef z)
                 (fun zz => Zombie.setSpeed zz (zombieSprinterSpeed E * 2)%float) in
      (walk g, setState z bossPhase2)
  | bossPhase2 =>
      let g := audio g (OnSound soundBigZombieScream Play) in
      (walk g, setState z bossRunning)
  | bossDeath2 =>
      let g := audio g (OnSound soundBigZombieDeath2 Play) in
      let (g, z) := BossDie g z in
      (onZombie g (ZombieRef z) (fun zz => Zombie.setState zz Zombie.zombieDead), z)
  | _ => (g, z)
  end.

Definition animationTags_eqb (a b : Boss.animationTags) : bool :=
  match a, b with
  | bossIdle1, bossIdle1 | bossIdle2, bossIdle2 | bossIdle3, bossIdle3
  | bossIdle4, bossIdle4 | bossWalking1, bossWalking1
  | bossWalking2, bossWalking2 | bossWalking3, bossWalking3
  | bossHit1, bossHit1 | bossHit2, bossHit2 | bossDeath1, bossDeath1
  | bossDeath2, bossDeath2 | bossPhase2, bossPhase2
  | bossRunning, bossRunning => true
  | _, _ => false
  end.

(** The animation of [z.State] has reached its last frame. *)
Definition animationComplete (E : BossCollaborators) (z : Boss.t) : bool :=
  Frame z =? To (FrameTags E (State z)).

(** [z.Update(g)] of the boss *)
Definition BossUpdate (E : BossCollaborators) (g : GameScreen) (z : Boss.t)
  : GameScreen * Boss.t * option error :=
  if Dead z then (g, z, Some (errorsNew "Zombie Boss died"))
  else
    let inner := Zombies g (ZombieRef z) in
    let z := setState z (selectState (Daemon z) (Zombie.HitToDie inner)
                           (Zombie.State inner) (State z)) in
    let z := setFrame z (Animate E (Frame z) (Tick g) (FrameTags E (State z))) in
    let (g, z) :=
      if animationComplete E z then outterAnimationBasedStateChanges E g z
      else (g, z) in
    if animationTags_eqb (State z) bossDeath1
       || animationTags_eqb (State z) bossDeath2
       || animationTags_eqb (State z) bossPhase2
    then (g, z, None)
    else
      let (g, err) := ZombieUpdate E g (ZombieRef z) in
      (g, z, err) (* probably dead inside, return early without handling *).

(** A tick without input whose collaborators do nothing. *)
Definition idleTick : Collaborators :=
  MkCollaborators false false (fun g => g) (fun g => g) (fun g => g) (fun g => g)
    (fun g => g).

(** Objects of the space: a zombie, the End entity, checkpoint [n]. *)
Definition aMob : Object := MkObject [tagMob] (DataZombie 0).
Definition theEnd : Object := MkObject [tagEnd] DataNil.
Definition checkpointObject (n : Z) : Object := MkObject [tagCheckpoint] (DataInt n).

(** The player stands on the End entity while a zombie overlaps the dog. *)
Definition finishLine : Space.t :=
  Space.Make
    (fun tag => if String.eqb tag tagEnd then Some (MkCollision theEnd []) else None)
    (fun tag => if String.eqb tag tagMob then Some (MkCollision aMob []) else None)
    (fun _ => true) (fun _ => true) (fun _ => false) [].

(** The player stands on checkpoint [n]. *)
Definition atCheckpoint (n : Z) : Space.t :=
  Space.Make
    (fun tag => if String.eqb tag tagCheckpoint
                then Some (MkCollision (checkpointObject n) []) else None)
    (fun _ => None) (fun _ => true) (fun _ => false) (fun _ => false) [].

(** A sample animation provider: a clip restarts at its first frame when the
    frame counter is outside of it or at its end, and advances by one frame
    on every fifth tick. *)
Definition sampleAnimate (frame tick : Z) (ft : FrameTag) : Z :=
  if (frame <? From ft) || (To ft <=? frame) then From ft
  else if tick mod 5 =? 0 then frame + 1
  else frame.

(** A sample sprite sheet: three frames for every state of the boss. *)
Definition sampleFrameTags (s : Boss.animationTags) : FrameTag :=
  let i := match s with
           | bossIdle1 => 0 | bossIdle2 => 1 | bossIdle3 => 2 | bossIdle4 => 3
           | bossWalking1 => 4 | bossWalking2 => 5 | bossWalking3 => 6
           | bossHit1 => 7 | bossHit2 => 8 | bossDeath1 => 9 | bossDeath2 => 10
           | bossPhase2 => 11 | bossRunning => 12
           end in
  MkFrameTag (3 * i) (3 * i + 2).

(** Sample collaborators of the boss; the inner zombie does nothing. *)
Definition sampleBoss : BossCollaborators :=
  MkBossCollaborators sampleAnimate sampleFrameTags 2 (fun g _ => (g, None)).

(** Collaborators under which every clip is at its last frame at once. *)
Definition instantBoss : BossCollaborators :=
  MkBossCollaborators (fun _ _ ft => To ft) sampleFrameTags 2 (fun g _ => (g, None)).

(** A game screen whose zombies all have [hits] hits left and are in the
    state [s]. *)
Definition bossScreen (hits : Z) (s : Zombie.state) : GameScreen :=
  MkGameScreen 0 (Player.Make (Player.playerOther 0) 6) (Dog.Make Dog.dogWalking)
    (fun _ => Zombie.Make hits s 1 true) quietSpace 0 false [].




(** A living boss in the state [s], at the first frame of its clip. *)
Definition bossAt (s : Boss.animationTags) (daemon : bool) : Boss.t :=
  Boss.Make 0 daemon s (From (sampleFrameTags s)) false.

(** The 3x3 grid with an obstacle north of its centre. *)
Definition cornerGrid : LevelMap := [[0; 1; 0]; [0; 0; 0]; [0; 0; 0]].

(** A zombie overlaps the dog; the player is alone. *)
Definition dogAttacked : Space.t :=
  Space.Make (fun _ => None)
    (fun tag => if String.eqb tag tagMob then Some (MkCollision aMob []) else None)
    (fun _ => false) (fun _ => true) (fun _ => false) [].

(** A wall, then two zombies, along the line of fire. *)
Definition lineOfFire : Space.t :=
  Space.Make (fun _ => None) (fun _ => None) (fun _ => false) (fun _ => false)
    (fun _ => false)
    [ MkCell [MkObject ["wall"%string] DataNil]
    ; MkCell [MkObject [tagMob] (DataZombie 4); MkObject [tagMob] (DataZombie 7)] ].

(** [l] with some of its elements left out, in the same order. *)
Inductive subsequence {A : Type} : list A -> list A -> Prop :=
| subsequence_nil : subsequence [] []
| subsequence_skip a l l' : subsequence l l' -> subsequence l (a :: l')
| subsequence_keep a l l' : subsequence l l' -> subsequence (a :: l) (a :: l').

(** The points [p], [p + d], ..., [p + n d]. *)
Definition straight (p d : Point) (n : nat) : list Point :=
  map (fun k => ray p d (Z.of_nat k)) (seq 0 (S n)).

(** The player stands on the End entity, on a checkpoint that has no voice
    and in a zombie, while another zombie overlaps the dog. *)
Definition everythingAtOnce : Space.t :=
  Space.Make
    (fun tag => if String.eqb tag tagEnd then Some (MkCollision theEnd [])
                else if String.eqb tag tagMob then Some (MkCollision aMob [])
                else Some (MkCollision (checkpointObject 9) []))
    (fun _ => Some (MkCollision aMob []))
    (fun _ => true) (fun _ => true) (fun _ => true) [].

(** ** The animation of the dog (dog.go) *)

(** [d.animate(g)]: the value it leaves in [d.Frame], given [g.Tick], the
    frame before and the frame range of the state of the dog; [None] is the
    panic of an integer division by zero. *)
Definition dogAnimate (tick frame : Z) (ft : FrameTag) : option Z :=
  (* Update only in every 5th cycle *)
  if negb (Z.rem tick 5 =? 0) then Some frame
  else if From ft =? To ft then Some (From ft)
  else
    let n := wrap (wrap (To ft - From ft) + 1) in
    if n =? 0 then None
    else Some (wrap (wrap (Z.rem (wrap (wrap (frame - From ft) + 1)) n) + From ft)).

(** ** The tile renderer *)

Module TileRenderer.

Section Renderer.

(** [*ebiten.Image] *)
Variable Image : Type.

(** [RenderedLayer]: the image rendered to, of the given size, and the
    tileset path of its layer. *)
Record RenderedLayer : Type := MkRenderedLayer
  { LayerImage : Z * Z; LayerTileset : string }.

(** [type TileRenderer struct]; [Tilesets] is the map from path to image,
    newest entry first, and [Loaded] records the calls of
    [Loader.LoadTileset], oldest first. *)
Record t : Type := Make
  { Tilesets : list (string * Image);
    CurrentTileset : string;
    RenderedLayers : list RenderedLayer;
    Loaded : list string }.

(** [er.Tilesets[path]] with its [exists] flag *)
Fixpoint lookup (ts : list (string * Image)) (path : string) : option Image :=
  match ts with
  | [] => None
  | (k, v) :: ts' => if String.eqb k path then Some v else lookup ts' path
  end.

(** [NewTileRenderer(loader)] *)
Definition NewTileRenderer : t := Make [] EmptyString [] [].

(** [er.Clear()] *)
Definition Clear (er : t) : t :=
  Make (Tilesets er) (CurrentTileset er) [] (Loaded er).

(** [er.beginLayer(layer, w, h)], [path] being [layer.Tileset.Path] *)
Definition beginLayer (LoadTileset : string -> Image) (er : t) (path : string)
    (w h : Z) : t :=
  let er :=
    match lookup (Tilesets er) path with
    | Some _ => er
    | None =>
        Make ((path, LoadTileset path) :: Tilesets er) (CurrentTileset er)
          (RenderedLayers er) (Loaded er ++ [path])
    end in
  Make (Tilesets er) path
    (RenderedLayers er ++ [MkRenderedLayer (w, h) path]) (Loaded er).

(** A call on the renderer. *)
Inductive call : Type :=
| callClear
| callBeginLayer (path : string) (w h : Z).

Definition perform (LoadTileset : string -> Image) (er : t) (c : call) : t :=
  match c with
  | callClear => Clear er
  | callBeginLayer path w h => beginLayer LoadTileset er path w h
  end.

Definition performAll (LoadTileset : string -> Image) (er : t) (cs : list call) : t :=
  fold_left (perform LoadTileset) cs er.

End Renderer.

End TileRenderer.

Arguments TileRenderer.Tilesets {Image}.
Arguments TileRenderer.CurrentTileset {Image}.
Arguments TileRenderer.RenderedLayers {Image}.
Arguments TileRenderer.Loaded {Image}.
Arguments TileRenderer.lookup {Image}.
Arguments TileRenderer.NewTileRenderer {Image}.
Arguments TileRenderer.Clear {Image}.
Arguments TileRenderer.beginLayer {Image}.
Arguments TileRenderer.perform {Image}.
Arguments TileRenderer.performAll {Image}.

(** The cache and the log of loads agree: a path is cached exactly when it
    was loaded, with the image the loader gave, and no path is loaded twice. *)
Definition cacheAgrees {Image : Type} (LoadTileset : string -> Image)
    (er : TileRenderer.t Image) : Prop :=
  NoDup (TileRenderer.Loaded er)
  /\ forall path,
       (In path (TileRenderer.Loaded er) ->
          TileRenderer.lookup (TileRenderer.Tilesets er) path = Some (LoadTileset path))
       /\ (~ In path (TileRenderer.Loaded er) ->
          TileRenderer.lookup (TileRenderer.Tilesets er) path = None).

(** * Properties *)

(** ** Integer wrap-around *)

Lemma wrap_small (z : Z) : int_min <= z <= int_max -> wrap z = z.
Proof.
  unfold wrap, int_min, int_max. intros H.
  rewrite Z.mod_small; lia.
Qed.

Lemma wrap_eq_mod (a b : Z) : wrap a = wrap b -> (a - b) mod 2 ^ 64 = 0.
Proof.
  unfold wrap. intros H.
  assert (E : (a + 2 ^ 63) mod 2 ^ 64 = (b + 2 ^ 63) mod 2 ^ 64) by lia.
  replace (a - b) with ((a + 2 ^ 63) - (b + 2 ^ 63)) by lia.
  rewrite Zminus_mod, E, Z.sub_diag. reflexivity.
Qed.

Lemma wrap_shift_neq (x d e : Z) :
  -2 <= d - e <= 2 -> d <> e -> wrap (x + d) <> wrap (x + e).
Proof.
  intros R N E. apply wrap_eq_mod in E.
  replace (x + d - (x + e)) with (d - e) in E by lia.
  assert (C : d - e = -2 \/ d - e = -1 \/ d - e = 1 \/ d - e = 2) by lia.
  destruct C as [C | [C | [C | C]]]; rewrite C in E; vm_compute in E; discriminate.
Qed.

(** ** The indexing monad *)

Lemma result_bind {A B : Type} (c : Indexed A) (k : A -> Indexed B) :
  result (bind c k) = match result c with Some a => result (k a) | None => None end.
Proof.
  destruct c as [tr [a |]]; simpl; [destruct (k a); reflexivity | reflexivity].
Qed.


Lemma result_isFreeAt (m : LevelMap) (p : Point) :
  result (isFreeAt m p)
  = match cellAt m p with Some v => Some (v =? 0) | None => None end.
Proof. reflexivity. Qed.

Lemma result_isFreeAt_inBounds (m : LevelMap) (p : Point) :
  inBounds m p = true -> result (isFreeAt m p) = Some (freeCell m p).
Proof.
  unfold inBounds, freeCell. rewrite result_isFreeAt.
  destruct (cellAt m p); [reflexivity | discriminate].
Qed.

Lemma result_diagBody (m : LevelMap) (p o : Point) (acc : list Point) :
  inBounds m (Add p o) = true ->
  inBounds m (Add p (Pt 0 (Y o))) = true ->
  inBounds m (Add p (Pt (X o) 0)) = true ->
  result (diagBody m p acc o)
  = Some (if corridor m p o then acc ++ [Add p o] else acc).
Proof.
  unfold diagBody, andThen, corridor, isFreeAt, freeCell, inBounds, bind, ret, result.
  destruct (cellAt m (Add p o)) as [v |]; [| discriminate].
  destruct (cellAt m (Add p (Pt 0 (Y o)))) as [v1 |]; [| discriminate].
  destruct (cellAt m (Add p (Pt (X o) 0))) as [v2 |]; [| discriminate].
  intros _ _ _.
  destruct (v =? 0); [| reflexivity].
  destruct (v1 =? 0); [| reflexivity].
  destruct (v2 =? 0); reflexivity.
Qed.

Lemma result_orthBody (m : LevelMap) (p o : Point) (acc : list Point) :
  inBounds m (Add p o) = true ->
  result (orthBody m p acc o)
  = Some (if freeCell m (Add p o) then acc ++ [Add p o] else acc).
Proof.
  unfold orthBody, isFreeAt, freeCell, inBounds, bind, ret, result.
  destruct (cellAt m (Add p o)) as [v |]; [| discriminate].
  intros _. destruct (v =? 0); reflexivity.
Qed.

Lemma result_forRange_filter {A B : Type} (body : list B -> A -> Indexed (list B))
    (c : A -> bool) (f : A -> B) (l : list A) :
  (forall o, In o l -> forall acc,
     result (body acc o) = Some (if c o then acc ++ [f o] else acc)) ->
  forall acc, result (forRange l acc body) = Some (acc ++ map f (filter c l)).
Proof.
  induction l as [| o l IH]; intros Hb acc; simpl.
  - rewrite app_nil_r. reflexivity.
  - rewrite result_bind, (Hb o (or_introl eq_refl)).
    rewrite IH by (intros o' Ho'; apply Hb; right; exact Ho').
    destruct (c o); simpl; [rewrite <- app_assoc |]; reflexivity.
Qed.

Lemma interior_inBounds (m : LevelMap) (p o : Point) :
  interior m p = true -> In o offsets8 -> inBounds m (Add p o) = true.
Proof.
  unfold interior. rewrite forallb_forall. intros H Ho. apply (H o Ho).
Qed.

Lemma Neighbours_interior (m : LevelMap) (p : Point) :
  interior m p = true ->
  result (Neighbours m p)
  = Some (map (Add p) (filter (corridor m p) offsetsDiag)
          ++ map (Add p) (filter (fun o => freeCell m (Add p o)) offsets)).
Proof.
  intros Hi. unfold Neighbours. rewrite result_bind.
  rewrite (result_forRange_filter (diagBody m p) (corridor m p) (Add p)).
  - rewrite (result_forRange_filter (orthBody m p)
               (fun o => freeCell m (Add p o)) (Add p)); [reflexivity |].
    intros o Ho acc. apply result_orthBody.
    apply interior_inBounds; [exact Hi | apply in_or_app; right; exact Ho].
  - intros o Ho acc.
    apply result_diagBody; apply interior_inBounds; try exact Hi;
      simpl in Ho; unfold offsets8; simpl;
      repeat (destruct Ho as [<- | Ho]; [simpl; tauto |]); contradiction.
Qed.

Lemma Add_offset_inj (p o o' : Point) :
  In o offsets8 -> In o' offsets8 -> Add p o = Add p o' -> o = o'.
Proof.
  unfold offsets8, offsetsDiag, offsets, Add. simpl. intros Ho Ho' E.
  injection E as Ex Ey.
  repeat (destruct Ho as [<- | Ho]; [| try contradiction]);
    repeat (destruct Ho' as [<- | Ho']; [| try contradiction]);
    cbn [X Y] in Ex, Ey; try reflexivity; exfalso;
    first [ revert Ex; apply wrap_shift_neq; lia
          | revert Ey; apply wrap_shift_neq; lia ].
Qed.

Lemma offsetsDiag_not_orth (o : Point) : In o offsetsDiag -> In o offsets -> False.
Proof.
  unfold offsetsDiag, offsets. simpl. intros Hd Ho.
  repeat (destruct Hd as [<- | Hd]; [| try contradiction]);
    repeat (destruct Ho as [Ho | Ho]; [discriminate Ho | try contradiction]).
Qed.

Lemma corridor_true (m : LevelMap) (p o : Point) :
  corridor m p o = true
  <-> freeCell m (Add p o) = true /\ freeCell m (Add p (Pt 0 (Y o))) = true
      /\ freeCell m (Add p (Pt (X o) 0)) = true.
Proof. unfold corridor. rewrite !andb_true_iff. tauto. Qed.

Lemma filter_length_bound {A : Type} (f : A -> bool) (l : list A) :
  (length (filter f l) <= length l)%nat.
Proof.
  induction l as [| a l IH]; simpl; [lia | destruct (f a); simpl; lia].
Qed.

(** C1 (amended): for every interior cell [p], one whose eight surrounding
    cells are all inside the grid, [Neighbours(p)] returns, and what it
    returns are at most 8 cells, each free and adjacent to [p]; a diagonal
    neighbour is among them if and only if the diagonal cell, the orthogonal
    cell sharing its row and the orthogonal cell sharing its column are all
    three free. *)
Theorem Neighbours_interior_spec (m : LevelMap) (p : Point) :
  interior m p = true ->
  exists ns,
    result (Neighbours m p) = Some ns
    /\ (length ns <= 8)%nat
    /\ (forall q, In q ns ->
          freeCell m q = true /\ exists o, In o offsets8 /\ q = Add p o)
    /\ (forall o, In o offsetsDiag ->
          (In (Add p o) ns
           <-> freeCell m (Add p o) = true
               /\ freeCell m (Add p (Pt 0 (Y o))) = true
               /\ freeCell m (Add p (Pt (X o) 0)) = true)).
Proof.
  intros Hi. eexists. split; [apply Neighbours_interior; exact Hi |].
  split; [| split].
  - rewrite length_app, !length_map.
    pose proof (filter_length_bound (corridor m p) offsetsDiag) as H1.
    pose proof (filter_length_bound (fun o => freeCell m (Add p o)) offsets) as H2.
    change (length offsetsDiag) with 4%nat in H1.
    change (length offsets) with 4%nat in H2. lia.
  - intros q Hq. apply in_app_or in Hq.
    destruct Hq as [Hq | Hq]; apply in_map_iff in Hq;
      destruct Hq as (o & <- & Ho); apply filter_In in Ho; destruct Ho as [Ho Hc].
    + apply corridor_true in Hc. split; [tauto |].
      exists o. split; [apply in_or_app; left; exact Ho | reflexivity].
    + split; [exact Hc |].
      exists o. split; [apply in_or_app; right; exact Ho | reflexivity].
  - intros o Ho. rewrite <- corridor_true. split.
    + intros Hq. apply in_app_or in Hq.
      destruct Hq as [Hq | Hq]; apply in_map_iff in Hq;
        destruct Hq as (o' & E & Ho'); apply filter_In in Ho'; destruct Ho' as [Ho' Hc].
      * apply Add_offset_inj in E;
          [subst o'; exact Hc | apply in_or_app; left; exact Ho'
          | apply in_or_app; left; exact Ho].
      * apply Add_offset_inj in E;
          [subst o'; destruct (offsetsDiag_not_orth o Ho Ho')
          | apply in_or_app; right; exact Ho' | apply in_or_app; left; exact Ho].
    + intros Hc. apply in_or_app. left. apply in_map. apply filter_In. tauto.
Qed.

Lemma Neighbours_interior_spec_witness :
  SetObstacle grid3 1 0 = Some cornerGrid
  /\ exists ns, result (Neighbours cornerGrid (Pt 1 1)) = Some ns
                /\ ~ In (Pt 2 0) ns /\ In (Pt 2 2) ns.
Proof.
  split; [reflexivity |].
  destruct (Neighbours_interior_spec cornerGrid (Pt 1 1) eq_refl)
    as (ns & Hr & _ & _ & Hd).
  exists ns. split; [exact Hr |]. split.
  - intros Hin. apply (Hd (Pt 1 (-1))) in Hin; [| simpl; tauto].
    destruct Hin as (_ & Hn & _). discriminate Hn.
  - apply (Hd (Pt 1 1)); [simpl; tauto |]. repeat split.
Defined.

(** ** Out-of-range accesses *)









Lemma index_Some {A : Type} (s : list A) (i : Z) :
  (exists a, index s i = Some a) <-> 0 <= i < Z.of_nat (length s).
Proof.
  unfold index. destruct (Z.ltb_spec i 0) as [Hn | Hn].
  - split; [intros [a Ha]; discriminate | lia].
  - split.
    + intros [a Ha].
      assert (Hs : nth_error s (Z.to_nat i) <> None) by (rewrite Ha; discriminate).
      apply nth_error_Some in Hs. lia.
    + intros Hi. destruct (nth_error s (Z.to_nat i)) eqn:E; [eauto |].
      apply nth_error_None in E. lia.
Qed.

Lemma index_In {A : Type} (s : list A) (i : Z) (a : A) : index s i = Some a -> In a s.
Proof.
  unfold index. destruct (i <? 0); [discriminate |]. apply nth_error_In.
Qed.

Lemma inBounds_rectangular (m : LevelMap) (w h : Z) (q : Point) :
  rectangular m w h ->
  (inBounds m q = true <-> (0 <= X q < w /\ 0 <= Y q < h)).
Proof.
  intros (Hh & Hw & _). unfold inBounds, cellAt.
  destruct (index m (Y q)) as [row |] eqn:Er.
  - assert (Hy : 0 <= Y q < Z.of_nat (length m)) by (apply index_Some; eauto).
    assert (Hrow : Z.of_nat (length row) = w).
    { apply index_In in Er. rewrite Forall_forall in Hw. apply Hw. exact Er. }
    destruct (index row (X q)) as [v |] eqn:Ec.
    + assert (Hx : 0 <= X q < Z.of_nat (length row)) by (apply index_Some; eauto).
      split; [lia | reflexivity].
    + split; [discriminate |]. intros [Hx _]. exfalso.
      rewrite <- Hrow in Hx. apply index_Some in Hx. destruct Hx as [a Ha]. congruence.
  - split; [discriminate |]. intros [_ Hy]. exfalso.
    rewrite <- Hh in Hy. apply index_Some in Hy. destruct Hy as [a Ha]. congruence.
Qed.

Lemma offsets8_range (o : Point) :
  In o offsets8 -> -1 <= X o <= 1 /\ -1 <= Y o <= 1.
Proof.
  unfold offsets8, offsetsDiag, offsets. simpl. intros H.
  repeat (destruct H as [<- | H]; [simpl; lia |]). contradiction.
Qed.







(** C1 as stated fails on a border cell: the corner of the empty 3x3 grid is
    in bounds, and [Neighbours] panics on it instead of returning. *)
Lemma Neighbours_in_bounds_counterexample :
  CreateMap 3 3 = Some grid3 /\ inBounds grid3 (Pt 0 0) = true
  /\ result (Neighbours grid3 (Pt 0 0)) = None.
Proof. repeat split. Qed.


(** ** Path simplification *)

Lemma Point_eqb_eq (p q : Point) : Point_eqb p q = true <-> p = q.
Proof.
  unfold Point_eqb. rewrite andb_true_iff, !Z.eqb_eq.
  destruct p, q; simpl. split; [intros [-> ->]; reflexivity | intros E; injection E; auto].
Qed.

Lemma simplifyLoop_step (p q : Point) (rest : list Point) (prev : Point)
    (res : list Point) :
  simplifyLoop (p :: q :: rest) prev res
  = if Point_eqb prev (Sub q p) then simplifyLoop (q :: rest) prev res
    else simplifyLoop (q :: rest) (Sub q p) (res ++ [p]).
Proof. reflexivity. Qed.

Lemma simplifyLoop_app (path : list Point) :
  forall prev res, simplifyLoop path prev res = res ++ simplifyLoop path prev [].
Proof.
  induction path as [| p rest IH]; intros prev res; simpl.
  - rewrite app_nil_r. reflexivity.
  - destruct rest as [| q rest'].
    + reflexivity.
    + destruct (Point_eqb prev (Sub q p)).
      * apply IH.
      * rewrite IH. rewrite (IH _ ([] ++ [p])). rewrite <- app_assoc. reflexivity.
Qed.

Lemma simplifyLoop_turning (path : list Point) :
  forall prev, turning prev path -> simplifyLoop path prev [] = path.
Proof.
  induction path as [| p rest IH]; intros prev Ht; [reflexivity |].
  destruct rest as [| q rest']; [reflexivity |].
  destruct Ht as [Hne Ht]. rewrite simplifyLoop_step, Hne.
  rewrite simplifyLoop_app. rewrite (IH _ Ht). reflexivity.
Qed.

Lemma Sub_cells (p q : Point) :
  isCell p = true -> isCell q = true -> Sub q p = Pt (X q - X p) (Y q - Y p).
Proof.
  unfold isCell, Sub. rewrite !andb_true_iff, !Z.leb_le.
  intros Hp Hq. rewrite !wrap_small; [reflexivity | |]; unfold int_min, int_max in *; lia.
Qed.

Lemma kingStep_offset (p q : Point) :
  kingStep p q = true ->
  exists o, In o offsets8 /\ q = ray p o 1 /\ Pt (X q - X p) (Y q - Y p) = o.
Proof.
  unfold kingStep. rewrite existsb_exists. intros (o & Ho & E).
  apply Point_eqb_eq in E. exists o. split; [exact Ho |].
  subst q. unfold ray. destruct o as [ox oy]. cbn [X Y].
  split; f_equal; lia.
Qed.

Lemma scaled_offset_eq (d d' : Point) (j k : Z) :
  In d offsets8 -> In d' offsets8 -> 1 <= j -> 1 <= k ->
  j * X d = k * X d' -> j * Y d = k * Y d' -> d = d'.
Proof.
  unfold offsets8, offsetsDiag, offsets. simpl. intros Hd Hd' Hj Hk.
  repeat (destruct Hd as [<- | Hd]; [| try contradiction]);
    repeat (destruct Hd' as [<- | Hd']; [| try contradiction]);
    simpl; intros Ex Ey; try reflexivity; exfalso; lia.
Qed.

Lemma offset_nonzero (d : Point) (k : Z) :
  In d offsets8 -> 1 <= k -> Pt (k * X d) (k * Y d) <> Pt 0 0.
Proof.
  unfold offsets8, offsetsDiag, offsets. simpl. intros Hd Hk E. injection E as Ex Ey.
  repeat (destruct Hd as [<- | Hd]; [simpl in *; lia |]). contradiction.
Qed.

Lemma runs_turning (d : Point) (path : list Point) :
  runs d path ->
  forall v, (v = Pt 0 0 /\ d = Pt 0 0)
            \/ (exists j, 1 <= j /\ v = Pt (j * X d) (j * Y d) /\ In d offsets8) ->
  turning v path.
Proof.
  induction 1 as [d | d p | d d' k p o rest Hd' Hne Hk Ho Hp Hoc Hr IH];
    intros v Hv; [exact I | exact I |].
  assert (Es : Sub o p = Pt (k * X d') (k * Y d')).
  { rewrite (Sub_cells p o Hp Hoc). subst o. unfold ray. cbn [X Y]. f_equal; lia. }
  cbn [turning]. rewrite Es. split.
  - apply not_true_iff_false. intros E. apply Point_eqb_eq in E.
    destruct Hv as [[-> ->] | (j & Hj & -> & Hd)].
    + symmetry in E. revert E. apply offset_nonzero; assumption.
    + injection E as Ex Ey. apply Hne. symmetry.
      apply (scaled_offset_eq d d' j k); assumption.
  - apply IH. right. exists k. auto.
Qed.

Lemma ray_zero (p d : Point) : ray p d 0 = p.
Proof. unfold ray. destruct p as [x y]. cbn [X Y]. f_equal; lia. Qed.

Lemma ray_step (p d : Point) (k : Z) : ray (ray p d 1) d k = ray p d (k + 1).
Proof. unfold ray. cbn [X Y]. f_equal; lia. Qed.

Lemma gridPath_step (p q : Point) (rest : list Point) :
  gridPath (p :: q :: rest) = isCell p && kingStep p q && gridPath (q :: rest).
Proof. reflexivity. Qed.

Lemma gridPath_head (p : Point) (rest : list Point) :
  gridPath (p :: rest) = true -> isCell p = true.
Proof.
  cbn [gridPath]. intros H.
  apply andb_true_iff in H. destruct H as [H _].
  apply andb_true_iff in H. tauto.
Qed.

Lemma simplifyLoop_runs (rest : list Point) :
  forall p d, gridPath (p :: rest) = true ->
  exists k o out,
    0 <= k /\ simplifyLoop (p :: rest) d [] = o :: out
    /\ o = ray p d k /\ isCell o = true /\ runs d (o :: out).
Proof.
  induction rest as [| q rest IH]; intros p d Hg.
  - exists 0, p, []. apply gridPath_head in Hg.
    repeat split; [lia | symmetry; apply ray_zero | exact Hg | constructor].
  - rewrite gridPath_step, !andb_true_iff in Hg.
    destruct Hg as [[Hp Hstep] Hg].
    pose proof (gridPath_head q rest Hg) as Hq.
    destruct (kingStep_offset p q Hstep) as (o' & Ho' & Eq & Ed).
    rewrite simplifyLoop_step, (Sub_cells p q Hp Hq), Ed.
    destruct (Point_eqb d o') eqn:E.
    + apply Point_eqb_eq in E. subst d.
      destruct (IH q o' Hg) as (k & o & out & Hk & Es & Eo & Hc & Hr).
      exists (k + 1), o, out. repeat split; try assumption; [lia |].
      rewrite Eo, Eq. apply ray_step.
    + destruct (IH q o' Hg) as (k & o & out & Hk & Es & Eo & Hc & Hr).
      exists 0, p, (o :: out). rewrite simplifyLoop_app, Es.
      repeat split; [lia | symmetry; apply ray_zero | exact Hp |].
      apply (runs_cons d o' (k + 1) p o out); try assumption; [| lia |].
      * intros ->. rewrite (proj2 (Point_eqb_eq d d) eq_refl) in E. discriminate.
      * rewrite Eo, Eq. apply ray_step.
Qed.

(** C7 (amended): path simplification is idempotent on grid paths, the
    paths of grid cells in which every step leads to one of the eight
    surrounding cells: [simplifyPath] of the output of [simplifyPath] is
    that same output. *)
Theorem simplifyPath_idempotent_grid (path : list Point) :
  gridPath path = true ->
  simplifyPath (simplifyPath path) = simplifyPath path.
Proof.
  intros Hg. unfold simplifyPath. destruct path as [| p rest]; [reflexivity |].
  destruct (simplifyLoop_runs rest p (Pt 0 0) Hg) as (k & o & out & _ & Es & _ & _ & Hr).
  rewrite Es. apply simplifyLoop_turning.
  apply (runs_turning (Pt 0 0)); [exact Hr | left; split; reflexivity].
Qed.

Lemma simplifyPath_idempotent_grid_witness :
  simplifyPath [Pt 0 0; Pt 1 0; Pt 2 0; Pt 3 1; Pt 4 2] = [Pt 0 0; Pt 2 0; Pt 4 2]
  /\ simplifyPath (simplifyPath [Pt 0 0; Pt 1 0; Pt 2 0; Pt 3 1; Pt 4 2])
     = simplifyPath [Pt 0 0; Pt 1 0; Pt 2 0; Pt 3 1; Pt 4 2].
Proof.
  split; [reflexivity |].
  apply (simplifyPath_idempotent_grid [Pt 0 0; Pt 1 0; Pt 2 0; Pt 3 1; Pt 4 2]).
  reflexivity.
Defined.

(** C7 as stated fails on a path with a step of two cells: the first pass
    keeps (2,0), the second drops it. *)
Lemma simplifyPath_not_idempotent :
  simplifyPath (simplifyPath [Pt 0 0; Pt 2 0; Pt 3 0; Pt 4 0])
  <> simplifyPath [Pt 0 0; Pt 2 0; Pt 3 0; Pt 4 0].
Proof. vm_compute. discriminate. Qed.

Lemma scanObjects_find (os : list Object) :
  scanObjects os = find (fun o => HasTags o tagMob) os.
Proof.
  induction os as [| o os IH]; simpl; [reflexivity |].
  destruct (HasTags o tagMob); [reflexivity | exact IH].
Qed.

Lemma find_app_first {A : Type} (f : A -> bool) (l l' : list A) :
  find f (l ++ l') = match find f l with Some a => Some a | None => find f l' end.
Proof.
  induction l as [| a l IH]; simpl; [reflexivity |].
  destruct (f a); [reflexivity | exact IH].
Qed.

Lemma scanCells_firstMob (cells : list Cell) : scanCells cells = firstMob cells.
Proof.
  unfold firstMob. induction cells as [| c cells IH]; simpl; [reflexivity |].
  rewrite find_app_first, scanObjects_find, IH. reflexivity.
Qed.

(** C5 (amended): with [Ammo = 0], [Shoot] decrements the [HitToDie] of no
    zombie, leaves [Ammo] at 0 and makes no call on the gunshot sound; in
    the states [playerShooting], [playerReady] and [playerUnready] it does
    nothing at all, and in every other state it takes the dry-fire path:
    the reload sound is paused, the dry-fire sound rewound and played, and
    the player put in [playerDryFire]. *)
Theorem Shoot_without_ammo (g : GameScreen) :
  Player.Ammo (ThePlayer g) = 0 ->
  exists g' played,
    Shoot g = Some g'
    /\ Zombies g' = Zombies g
    /\ Player.Ammo (ThePlayer g') = 0
    /\ Audio g' = Audio g ++ played
    /\ (forall c, ~ In (OnSound soundGunShot c) played)
    /\ if ignoresClick (Player.State (ThePlayer g)) then g' = g
       else Player.State (ThePlayer g') = Player.playerDryFire
            /\ played = [OnSound soundGunReload Pause; OnSound soundDryFire Rewind;
                         OnSound soundDryFire Play].
Proof.
  intros Ha.
  assert (Hdry : forall c,
    ~ In (OnSound soundGunShot c)
         [OnSound soundGunReload Pause; OnSound soundDryFire Rewind;
          OnSound soundDryFire Play]).
  { intros c [H | [H | [H | []]]]; discriminate H. }
  assert (Hlog : Audio (interruptReload g)
                 = Audio g ++ [OnSound soundGunReload Pause; OnSound soundDryFire Rewind;
                               OnSound soundDryFire Play]).
  { simpl. rewrite <- !app_assoc. reflexivity. }
  unfold Shoot. rewrite Ha.
  destruct (Player.State (ThePlayer g)) eqn:Es; simpl ignoresClick; cbv iota;
    try (exists g, []; rewrite app_nil_r;
         repeat split; [exact Ha | intros c []]);
    (exists (interruptReload g), [OnSound soundGunReload Pause; OnSound soundDryFire Rewind;
                                  OnSound soundDryFire Play];
     repeat split; [exact Ha | exact Hlog | exact Hdry]).
Qed.

Lemma Shoot_without_ammo_witness :
  exists g' played,
    Shoot (screenWith (Player.Make (Player.playerOther 0) 0) lineOfFire) = Some g'
    /\ Zombies g' = (fun _ => someZombie)
    /\ Player.Ammo (ThePlayer g') = 0
    /\ Audio g' = played
    /\ Player.State (ThePlayer g') = Player.playerDryFire.
Proof.
  destruct (Shoot_without_ammo
              (screenWith (Player.Make (Player.playerOther 0) 0) lineOfFire) eq_refl)
    as (g' & played & H1 & H2 & H3 & H4 & _ & H5 & _).
  exists g', played. repeat split; assumption.
Defined.

(** C5 as stated fails in [playerReady]: without ammunition the click is
    ignored, no dry-fire sound is played and the state stays. *)
Lemma Shoot_ready_without_ammo :
  let g := screenWith (Player.Make Player.playerReady 0) quietSpace in
  Player.Ammo (ThePlayer g) = 0 /\ Shoot g = Some g
  /\ Player.State (ThePlayer g) <> Player.playerDryFire
  /\ ~ In (OnSound soundDryFire Play) (Audio g).
Proof.
  simpl. repeat split; [discriminate | intros []].
Qed.

(** C6: when a shot is fired (a state in which a click fires, and
    [Ammo >= 1]), [Ammo] is decremented by exactly 1 and the trace stops at
    the first mob-tagged object along the ordered cells of the line of fire:
    the zombie it carries has its [HitToDie] decremented once and every
    other zombie is untouched; without a mob on the line no zombie is
    touched. (The type assertion panics on a mob that carries no zombie.) *)
Theorem Shoot_hits_first_mob (g : GameScreen) :
  canFire (Player.State (ThePlayer g)) = true ->
  1 <= Player.Ammo (ThePlayer g) <= int_max ->
  match firstMob (Space.CellsInLineOfFire (TheSpace g)) with
  | None =>
      exists g', Shoot g = Some g'
        /\ Player.Ammo (ThePlayer g') = Player.Ammo (ThePlayer g) - 1
        /\ Zombies g' = Zombies g
  | Some o =>
      match Data o with
      | DataZombie r =>
          exists g', Shoot g = Some g'
            /\ Player.Ammo (ThePlayer g') = Player.Ammo (ThePlayer g) - 1
            /\ Zombie.HitToDie (Zombies g' r)
               = wrap (Zombie.HitToDie (Zombies g r) - 1)
            /\ forall r', r' <> r -> Zombies g' r' = Zombies g r'
      | _ => Shoot g = None
      end
  end.
Proof.
  intros Hs Ha.
  assert (Hw : wrap (Player.Ammo (ThePlayer g) - 1) = Player.Ammo (ThePlayer g) - 1).
  { apply wrap_small. unfold int_min, int_max in *. lia. }
  assert (Hlt : (Player.Ammo (ThePlayer g) <? 1) = false) by (apply Z.ltb_ge; lia).
  rewrite <- scanCells_firstMob. unfold Shoot.
  destruct (Player.State (ThePlayer g)) eqn:Es; try discriminate Hs;
    rewrite Hlt; simpl;
    (destruct (scanCells (Space.CellsInLineOfFire (TheSpace g))) as [o |];
     [ destruct (Data o) as [r | n |];
       [ eexists; split; [reflexivity |]; simpl; rewrite Nat.eqb_refl;
         split; [exact Hw | split; [reflexivity |]];
         intros r' Hr'; apply Nat.eqb_neq in Hr'; rewrite Hr'; reflexivity
       | reflexivity | reflexivity ]
     | eexists; split; [reflexivity |]; simpl; split; [exact Hw | reflexivity] ]).
Qed.

Lemma Shoot_hits_first_mob_witness :
  exists g',
    Shoot (screenWith (Player.Make (Player.playerOther 0) 6) lineOfFire) = Some g'
    /\ Player.Ammo (ThePlayer g') = 5
    /\ Zombie.HitToDie (Zombies g' 4) = 2
    /\ Zombie.HitToDie (Zombies g' 7) = 3.
Proof.
  assert (Ha : 1 <= 6 <= int_max) by (unfold int_max; lia).
  pose proof (Shoot_hits_first_mob
                (screenWith (Player.Make (Player.playerOther 0) 6) lineOfFire)
                eq_refl Ha) as H.
  cbv beta iota delta [firstMob lineOfFire screenWith TheSpace Space.CellsInLineOfFire
                       map Objects List.concat app find HasTags Tags existsb
                       tagMob String.eqb Ascii.eqb Bool.eqb orb Data] in H.
  destruct H as (g' & H1 & H2 & H3 & H4).
  exists g'. split; [exact H1 |]. split; [exact H2 |]. split; [exact H3 |].
  rewrite (H4 7%nat); [reflexivity | discriminate].
Defined.

Lemma reachCheckpoint_frame (g g1 : GameScreen) :
  reachCheckpoint g = Some g1 ->
  TheSpace g1 = TheSpace g /\ TheDog g1 = TheDog g /\ Zombies g1 = Zombies g.
Proof.
  unfold reachCheckpoint.
  destruct (Space.CheckPlayer (TheSpace g) tagCheckpoint) as [c |];
    [| intros E; injection E as <-; auto].
  destruct (Space.PlayerOverlaps (TheSpace g) (first c));
    [| intros E; injection E as <-; auto].
  destruct (Data (first c)) as [r | n |]; try discriminate.
  destruct (Checkpoint g <? n); [| intros E; injection E as <-; auto].
  cbv zeta.
  destruct ((0 <=? wrap (Checkpoint (setCheckpoint g n) - 1))
            && (wrap (Checkpoint (setCheckpoint g n) - 1) <? checkpointVoices));
    [| discriminate].
  intros E; injection E as <-. auto.
Qed.

Lemma mode_eqb_dead (m : Dog.mode) : Dog.mode_eqb m Dog.dogDead = true <-> m = Dog.dogDead.
Proof. destruct m; simpl; split; intros H; try reflexivity; discriminate H. Qed.

(** C9 (amended): in a tick in which, after the entity updates, the zombie
    found at the dog overlaps it, [Update] sets the dog to [dogDead] and
    returns [gameOver], unless the tick has ended before: when a zombie has
    caught the player, [Update] returns [gameOver] without touching the dog,
    and when the player has reached the End entity it returns [gameWon]. *)
Theorem dog_caught_outcome (E : Collaborators) (g g1 : GameScreen) :
  updateEntities E g = Some g1 ->
  dogCaught g1 = true ->
  if playerCaught g1 then
    exists g', Update E g = Some (gameOver, g') /\ TheDog g' = TheDog g1
  else
    match reachCheckpoint g1 with
    | None => Update E g = None
    | Some g2 =>
        if reachedEnd g1 then Update E g = Some (gameWon, g2)
        else exists g', Update E g = Some (gameOver, g')
                        /\ Dog.Mode (TheDog g') = Dog.dogDead
    end.
Proof.
  intros He Hd. unfold Update. rewrite He. unfold respondToCollisions.
  destruct (playerCaught g1).
  - eexists. split; reflexivity.
  - destruct (reachCheckpoint g1) as [g2 |] eqn:Ec; [| reflexivity].
    destruct (reachCheckpoint_frame g1 g2 Ec) as (Hsp & Hdog & _).
    assert (Hend : reachedEnd g2 = reachedEnd g1) by (unfold reachedEnd; rewrite Hsp; reflexivity).
    assert (Hdc : dogCaught g2 = true) by (unfold dogCaught; rewrite Hsp; exact Hd).
    rewrite Hend. destruct (reachedEnd g1); [reflexivity |].
    rewrite Hdc. simpl. eexists. split; reflexivity.
Qed.

Lemma dog_caught_outcome_witness :
  exists g',
    Update idleTick (screenWith (Player.Make (Player.playerOther 0) 6) dogAttacked)
    = Some (gameOver, g')
    /\ Dog.Mode (TheDog g') = Dog.dogDead.
Proof.
  exact (dog_caught_outcome idleTick
           (screenWith (Player.Make (Player.playerOther 0) 6) dogAttacked)
           _ eq_refl eq_refl).
Defined.

(** C9 as stated fails when the player stands on the End entity: the zombie
    overlaps the dog, yet [Update] returns [gameWon] and the dog lives. *)
Lemma dog_caught_at_the_end :
  let g := screenWith (Player.Make (Player.playerOther 0) 6) finishLine in
  exists g', dogCaught g' = true /\ updateEntities idleTick g = Some g'
             /\ Update idleTick g = Some (gameWon, g')
             /\ Dog.Mode (TheDog g') <> Dog.dogDead.
Proof.
  eexists. repeat split; [reflexivity | discriminate].
Qed.

Lemma voicesPlayed_app (l l' : list AudioEvent) :
  voicesPlayed (l ++ l') = voicesPlayed l ++ voicesPlayed l'.
Proof.
  induction l as [| e l IH]; simpl; [reflexivity |].
  destruct e as [s c | i c]; [exact IH |].
  destruct c; simpl; rewrite IH; reflexivity.
Qed.

Lemma voicesPlayed_sound (l : list AudioEvent) (s : Sound) (c : AudioCall) :
  voicesPlayed (l ++ [OnSound s c]) = voicesPlayed l.
Proof. rewrite voicesPlayed_app. simpl. apply app_nil_r. Qed.

Lemma Shoot_keeps_checkpoint (g g' : GameScreen) :
  Shoot g = Some g' ->
  Checkpoint g' = Checkpoint g /\ voicesPlayed (Audio g') = voicesPlayed (Audio g).
Proof.
  unfold Shoot.
  assert (Hi : Checkpoint (interruptReload g) = Checkpoint g
               /\ voicesPlayed (Audio (interruptReload g)) = voicesPlayed (Audio g)).
  { simpl. rewrite !voicesPlayed_sound. auto. }
  destruct (Player.State (ThePlayer g));
    try (intros E; injection E as <-; auto; fail);
    (destruct (Player.Ammo (ThePlayer g) <? 1);
     [ intros E; injection E as <-; exact Hi |];
     simpl;
     destruct (scanCells (Space.CellsInLineOfFire (TheSpace g))) as [o |];
     [ destruct (Data o); try discriminate |];
     intros E; injection E as <-; simpl; rewrite !voicesPlayed_sound; auto).
Qed.

Lemma updateEntities_keeps_checkpoint (E : Collaborators) (g g1 : GameScreen) :
  keepsCheckpoint (PlayerReload E) -> keepsCheckpoint (PlayerUpdate E) ->
  keepsCheckpoint (DogUpdate E) -> keepsCheckpoint (ZombiesUpdate E) ->
  keepsCheckpoint (SpawnPointsUpdate E) ->
  updateEntities E g = Some g1 ->
  Checkpoint g1 = Checkpoint g /\ voicesPlayed (Audio g1) = voicesPlayed (Audio g).
Proof.
  intros Hr Hp Hd Hz Hs. unfold updateEntities.
  set (g0 := setTick g (wrap (Tick g + 1))).
  set (ga := if keyRJustPressed E then _ else g0).
  assert (Ha : Checkpoint ga = Checkpoint g
               /\ voicesPlayed (Audio ga) = voicesPlayed (Audio g)).
  { subst ga. destruct (keyRJustPressed E); [| split; reflexivity].
    destruct (Player.State (ThePlayer g0)); try (split; reflexivity);
      destruct (Hr g0) as [H1 H2]; rewrite H1, H2; split; reflexivity. }
  destruct Ha as [Ha1 Ha2].
  assert (Hb : forall gb, (if clicked E then Shoot ga else Some ga) = Some gb ->
               Checkpoint gb = Checkpoint g
               /\ voicesPlayed (Audio gb) = voicesPlayed (Audio g)).
  { intros gb. destruct (clicked E).
    - intros Hsh. apply Shoot_keeps_checkpoint in Hsh. destruct Hsh as [-> ->]. auto.
    - intros Hsh. injection Hsh as <-. auto. }
  destruct (if clicked E then Shoot ga else Some ga) as [gb |]; [| discriminate].
  destruct (Hb gb eq_refl) as [Hb1 Hb2].
  intros Eq. injection Eq as <-.
  destruct (Hs (ZombiesUpdate E (DogUpdate E (PlayerUpdate E gb)))) as [-> ->].
  destruct (Hz (DogUpdate E (PlayerUpdate E gb))) as [-> ->].
  destruct (Hd (PlayerUpdate E gb)) as [-> ->].
  destruct (Hp gb) as [-> ->]. auto.
Qed.

(** The checkpoint block of [Update]. *)
Lemma reachCheckpoint_spec (g g1 : GameScreen) :
  reachCheckpoint g = Some g1 ->
  (Checkpoint g1 = Checkpoint g /\ Audio g1 = Audio g)
  \/ (Checkpoint g < Checkpoint g1
      /\ (exists c, Space.CheckPlayer (TheSpace g) tagCheckpoint = Some c
                    /\ Space.PlayerOverlaps (TheSpace g) (first c) = true
                    /\ Data (first c) = DataInt (Checkpoint g1))
      /\ voicesPlayed (Audio g1)
         = voicesPlayed (Audio g) ++ [wrap (Checkpoint g1 - 1)]).
Proof.
  unfold reachCheckpoint.
  destruct (Space.CheckPlayer (TheSpace g) tagCheckpoint) as [c |] eqn:Ec;
    [| intros E; injection E as <-; auto].
  destruct (Space.PlayerOverlaps (TheSpace g) (first c)) eqn:Eo;
    [| intros E; injection E as <-; auto].
  destruct (Data (first c)) as [r | n |] eqn:Ed; try discriminate.
  destruct (Z.ltb_spec (Checkpoint g) n) as [Hlt | Hge];
    [| intros E; injection E as <-; auto].
  cbv zeta. change (Checkpoint (setCheckpoint g n)) with n.
  destruct ((0 <=? wrap (n - 1)) && (wrap (n - 1) <? checkpointVoices)) eqn:Ei;
    [| discriminate].
  intros E; injection E as <-. right. simpl.
  split; [exact Hlt |]. split.
  - exists c. auto.
  - rewrite <- app_assoc, voicesPlayed_app. simpl. reflexivity.
Qed.

Lemma respondToCollisions_checkpoint (g1 g' : GameScreen) (st : GameState) :
  respondToCollisions g1 = Some (st, g') ->
  exists g2,
    (g2 = g1 \/ reachCheckpoint g1 = Some g2)
    /\ Checkpoint g' = Checkpoint g2
    /\ voicesPlayed (Audio g') = voicesPlayed (Audio g2).
Proof.
  unfold respondToCollisions. destruct (playerCaught g1).
  - intros Eq. injection Eq as _ <-. exists g1. simpl.
    rewrite !voicesPlayed_sound. auto.
  - destruct (reachCheckpoint g1) as [g2 |]; [| discriminate].
    intros Hq. exists g2. split; [right; reflexivity |]. revert Hq.
    destruct (reachedEnd g2).
    + intros Eq. injection Eq as _ <-. auto.
    + destruct (dogCaught g2); cbv zeta;
        match goal with
        | |- context [Dog.mode_eqb ?m Dog.dogDead] =>
            destruct (Dog.mode_eqb m Dog.dogDead)
        end;
        intros Eq; injection Eq as _ <-; simpl;
        rewrite ?voicesPlayed_sound; auto.
Qed.

(** C10: across a tick of [Update], [Checkpoint] never decreases, provided
    the entity updates whose code is not at hand leave it alone. It changes
    only when, after the entity updates, the player overlaps a checkpoint
    object whose number is strictly greater, and becomes that number; the
    checkpoint voice is played exactly then, the voice of checkpoint N
    being the one at index N-1, and no checkpoint voice is played in a tick
    that leaves [Checkpoint] as it was. *)
Theorem Checkpoint_never_decreases (E : Collaborators) (g g' : GameScreen)
    (st : GameState) :
  keepsCheckpoint (PlayerReload E) -> keepsCheckpoint (PlayerUpdate E) ->
  keepsCheckpoint (DogUpdate E) -> keepsCheckpoint (ZombiesUpdate E) ->
  keepsCheckpoint (SpawnPointsUpdate E) ->
  Update E g = Some (st, g') ->
  Checkpoint g <= Checkpoint g'
  /\ (Checkpoint g' = Checkpoint g ->
        voicesPlayed (Audio g') = voicesPlayed (Audio g))
  /\ (Checkpoint g' <> Checkpoint g ->
        Checkpoint g < Checkpoint g'
        /\ (exists g1 c,
              updateEntities E g = Some g1
              /\ Space.CheckPlayer (TheSpace g1) tagCheckpoint = Some c
              /\ Space.PlayerOverlaps (TheSpace g1) (first c) = true
              /\ Data (first c) = DataInt (Checkpoint g'))
        /\ voicesPlayed (Audio g')
           = voicesPlayed (Audio g) ++ [wrap (Checkpoint g' - 1)]).
Proof.
  intros Hr Hp Hd Hz Hs. unfold Update.
  destruct (updateEntities E g) as [g1 |] eqn:He; [| discriminate].
  destruct (updateEntities_keeps_checkpoint E g g1 Hr Hp Hd Hz Hs He) as [Hc Hv].
  intros Hresp.
  destruct (respondToCollisions_checkpoint g1 g' st Hresp) as (g2 & Hg2 & Hc' & Hv').
  rewrite Hc', Hv'. clear Hresp Hc' Hv'.
  assert (Hsame : Checkpoint g2 = Checkpoint g1 /\ Audio g2 = Audio g1 ->
    Checkpoint g <= Checkpoint g2
    /\ (Checkpoint g2 = Checkpoint g ->
          voicesPlayed (Audio g2) = voicesPlayed (Audio g))
    /\ (Checkpoint g2 <> Checkpoint g ->
          Checkpoint g < Checkpoint g2
          /\ (exists g1' c,
                Some g1 = Some g1'
                /\ Space.CheckPlayer (TheSpace g1') tagCheckpoint = Some c
                /\ Space.PlayerOverlaps (TheSpace g1') (first c) = true
                /\ Data (first c) = DataInt (Checkpoint g2))
          /\ voicesPlayed (Audio g2)
             = voicesPlayed (Audio g) ++ [wrap (Checkpoint g2 - 1)])).
  { intros [H1 H2]. rewrite H1, H2, Hc, Hv. split; [lia |].
    split; [reflexivity | intros N; contradiction N; reflexivity]. }
  destruct Hg2 as [-> | Ec]; [apply Hsame; split; reflexivity |].
  destruct (reachCheckpoint_spec g1 g2 Ec) as [H | (H1 & (c & H2) & H3)];
    [apply Hsame; exact H |].
  rewrite Hc in H1. rewrite Hv in H3. split; [lia |].
  split; [intros N; lia |]. intros _. split; [exact H1 |].
  split; [exists g1, c; tauto | exact H3].
Qed.

Lemma Checkpoint_never_decreases_witness :
  let g := screenWith (Player.Make (Player.playerOther 0) 6) (atCheckpoint 1) in
  exists g', Update idleTick g = Some (gameRunning, g')
             /\ Checkpoint g = 0 /\ Checkpoint g' = 1
             /\ voicesPlayed (Audio g') = voicesPlayed (Audio g) ++ [0].
Proof.
  eexists. split; [reflexivity |].
  assert (K : keepsCheckpoint (fun g : GameScreen => g)) by (intros g; split; reflexivity).
  destruct (Checkpoint_never_decreases idleTick
              (screenWith (Player.Make (Player.playerOther 0) 6) (atCheckpoint 1))
              _ gameRunning K K K K K eq_refl) as (_ & _ & H).
  destruct H as (_ & _ & H); [simpl; discriminate |].
  split; [reflexivity |]. split; [reflexivity |]. exact H.
Defined.

(** C4 (amended): when the boss is in phase 1 with [HitToDie = 2] and its
    inner zombie in the hit state, [Update] puts it in [bossDeath1]; when
    that animation completes the boss does not die but enters phase 2:
    [Daemon] is true, the speed is twice the sprinter speed, the death-1
    sound is played, the state is [bossPhase2] with the inner zombie
    walking, [HitToDie] is still 2 and [Dead] stays false. *)
Theorem Boss_death1_leads_to_phase2 (E : BossCollaborators) (g : GameScreen)
    (z : Boss.t) :
  Dead z = false -> Daemon z = false ->
  Zombie.HitToDie (Zombies g (ZombieRef z)) = 2 ->
  Zombie.State (Zombies g (ZombieRef z)) = Zombie.zombieHit ->
  let '(g', z', err) := BossUpdate E g z in
  let inner := Zombies g' (ZombieRef z') in
  err = None /\ Dead z' = false /\ Zombie.HitToDie inner = 2
  /\ BossDefeated g' = BossDefeated g
  /\ if Animate E (Frame z) (Tick g) (FrameTags E bossDeath1)
        =? To (FrameTags E bossDeath1)
     then Daemon z' = true /\ State z' = bossPhase2
          /\ Zombie.Speed inner = (zombieSprinterSpeed E * 2)%float
          /\ Zombie.State inner = Zombie.zombieWalking
          /\ Audio g' = Audio g ++ [OnSound soundBigZombieDeath1 Play]
     else Daemon z' = false /\ State z' = bossDeath1 /\ g' = g.
Proof.
  intros Hdead Hdaemon Hhits Hstate. unfold BossUpdate.
  rewrite Hdead, Hdaemon, Hhits, Hstate.
  change (selectState false 2 Zombie.zombieHit (State z)) with bossDeath1.
  unfold animationComplete. cbn [setState setFrame State Frame].
  destruct (Animate E (Frame z) (Tick g) (FrameTags E bossDeath1)
            =? To (FrameTags E bossDeath1)).
  - unfold outterAnimationBasedStateChanges.
    cbn [setState setFrame setDaemon State Frame ZombieRef Daemon Dead
         animationTags_eqb orb].
    cbn [Zombies onZombie setZombies audio Audio BossDefeated]. rewrite !Nat.eqb_refl.
    cbn [Zombie.HitToDie Zombie.State Zombie.Speed Zombie.setState Zombie.setSpeed].
    repeat split; assumption.
  - cbn [setState setFrame State Frame ZombieRef Daemon Dead animationTags_eqb orb].
    repeat split; assumption.
Qed.

Lemma Boss_death1_leads_to_phase2_witness :
  let '(g', z', err) :=
    BossUpdate instantBoss (bossScreen 2 Zombie.zombieHit) (bossAt bossWalking3 false) in
  err = None /\ Dead z' = false /\ Daemon z' = true /\ State z' = bossPhase2
  /\ Zombie.HitToDie (Zombies g' (ZombieRef z')) = 2.
Proof.
  pose proof (Boss_death1_leads_to_phase2 instantBoss (bossScreen 2 Zombie.zombieHit)
                (bossAt bossWalking3 false) eq_refl eq_refl eq_refl eq_refl) as H.
  destruct (BossUpdate instantBoss (bossScreen 2 Zombie.zombieHit)
              (bossAt bossWalking3 false)) as [[g' z'] err].
  cbv zeta in H. destruct H as (H1 & H2 & H3 & _ & H4).
  change (Animate instantBoss (Frame (bossAt bossWalking3 false))
            (Tick (bossScreen 2 Zombie.zombieHit)) (FrameTags instantBoss bossDeath1)
          =? To (FrameTags instantBoss bossDeath1)) with true in H4.
  cbv iota in H4. destruct H4 as (H4 & H5 & _).
  repeat split; assumption.
Defined.

(** C4 as stated fails: with [HitToDie = 1] in phase 1 the hit boss enters
    [bossDeath2], not [bossDeath1], and dies for good when it completes. *)
Lemma Boss_one_hit_left_in_phase1 :
  let '(g', z', err) :=
    BossUpdate instantBoss (bossScreen 1 Zombie.zombieHit) (bossAt bossDeath1 false) in
  State z' = bossDeath2 /\ Daemon z' = false /\ Dead z' = true.
Proof. vm_compute. repeat split. Qed.



(** ** Normalisation *)

(** C8 (the code at a failing input): [NormalizeVector] has no guard
    against a zero magnitude; on the zero vector both components of its
    result are NaN. *)
Theorem NormalizeVector_zero_is_NaN :
  PrimFloat.is_nan (CoordX (NormalizeVector (Co 0 0))) = true
  /\ PrimFloat.is_nan (CoordY (NormalizeVector (Co 0 0))) = true
  /\ invalidFloat (CoordX (NormalizeVector (Co 0 0))) = true.
Proof. vm_compute. repeat split. Qed.

(** * Further properties *)

(** ** More on the level map *)




Lemma nth_error_store_same {A : Type} (s : list A) (i : nat) (v : A) :
  (i < length s)%nat -> nth_error (store s i v) i = Some v.
Proof.
  revert i. induction s as [| a s IH]; intros i Hi; simpl in Hi; [lia |].
  destruct i as [| i]; simpl; [reflexivity | apply IH; lia].
Qed.

Lemma nth_error_store_other {A : Type} (s : list A) (i j : nat) (v : A) :
  i <> j -> nth_error (store s i v) j = nth_error s j.
Proof.
  revert i j. induction s as [| a s IH]; intros i j Hij; [destruct i; reflexivity |].
  destruct i as [| i], j as [| j]; simpl; try reflexivity; [lia | apply IH; lia].
Qed.

Lemma length_store {A : Type} (s : list A) (i : nat) (v : A) :
  length (store s i v) = length s.
Proof.
  revert i. induction s as [| a s IH]; intros i; [destruct i; reflexivity |].
  destruct i as [| i]; simpl; [reflexivity | rewrite IH; reflexivity].
Qed.

Lemma index_store_same {A : Type} (s : list A) (i : Z) (v a : A) :
  index s i = Some a -> index (store s (Z.to_nat i) v) i = Some v.
Proof.
  intros H. assert (Hi : 0 <= i < Z.of_nat (length s)) by (apply index_Some; eauto).
  unfold index. replace (i <? 0) with false by (symmetry; apply Z.ltb_ge; lia).
  apply nth_error_store_same. lia.
Qed.

Lemma index_store_other {A : Type} (s : list A) (i j : Z) (v : A) :
  0 <= i -> i <> j -> index (store s (Z.to_nat i) v) j = index s j.
Proof.
  intros Hi Hij. unfold index. destruct (Z.ltb_spec j 0); [reflexivity |].
  apply nth_error_store_other. lia.
Qed.

(** What [SetObstacle] leaves in each cell. *)
Lemma cellAt_SetObstacle (m m' : LevelMap) (x y : Z) (q : Point) :
  SetObstacle m x y = Some m' ->
  cellAt m' q = if Point_eqb q (Pt x y) then Some 1 else cellAt m q.
Proof.
  unfold SetObstacle.
  destruct (index m y) as [row |] eqn:Er; [| discriminate].
  destruct (index row x) as [v |] eqn:Ec; [| discriminate].
  intros E. injection E as <-.
  assert (Hy : 0 <= y < Z.of_nat (length m)) by (apply index_Some; eauto).
  assert (Hx : 0 <= x < Z.of_nat (length row)) by (apply index_Some; eauto).
  unfold cellAt, Point_eqb. cbn [X Y].
  destruct (Z.eqb_spec (Y q) y) as [Ey | Ey].
  - rewrite Ey, (index_store_same m y _ row Er), Er.
    destruct (Z.eqb_spec (X q) x) as [Ex | Ex]; simpl.
    + rewrite Ex. apply (index_store_same row x 1 v Ec).
    + apply index_store_other; [lia | congruence].
  - rewrite andb_false_r. rewrite index_store_other by (lia || congruence).
    reflexivity.
Qed.

(** X2: after [SetObstacle(x, y)] the cell [(x, y)] is no longer free, every
    other cell answers [isFreeAt] as before, the bounds are the same, and no
    cell has become free. *)
Theorem SetObstacle_then_isFreeAt (m m' : LevelMap) (x y : Z) :
  SetObstacle m x y = Some m' ->
  result (isFreeAt m' (Pt x y)) = Some false
  /\ (forall q, q <> Pt x y -> isFreeAt m' q = isFreeAt m q)
  /\ (forall q, inBounds m' q = inBounds m q)
  /\ (forall q, freeCell m' q = true -> freeCell m q = true).
Proof.
  intros H. pose proof (cellAt_SetObstacle m m' x y) as Hc.
  assert (Hin : cellAt m (Pt x y) <> None).
  { revert H. unfold SetObstacle, cellAt. cbn [X Y].
    destruct (index m y) as [row |]; [| discriminate].
    destruct (index row x); [discriminate | discriminate]. }
  split; [| split; [| split]].
  - rewrite result_isFreeAt, (Hc (Pt x y) H).
    rewrite (proj2 (Point_eqb_eq _ _) eq_refl). reflexivity.
  - intros q Hq. unfold isFreeAt. rewrite (Hc q H).
    destruct (Point_eqb q (Pt x y)) eqn:E; [| reflexivity].
    apply Point_eqb_eq in E. contradiction.
  - intros q. unfold inBounds. rewrite (Hc q H).
    destruct (Point_eqb q (Pt x y)) eqn:E; [| reflexivity].
    apply Point_eqb_eq in E. subst q.
    destruct (cellAt m (Pt x y)); [reflexivity | contradiction].
  - intros q. unfold freeCell. rewrite (Hc q H).
    destruct (Point_eqb q (Pt x y)); [discriminate | auto].
Qed.

Lemma SetObstacle_then_isFreeAt_witness :
  exists m', SetObstacle grid3 1 0 = Some m'
    /\ result (isFreeAt m' (Pt 1 0)) = Some false
    /\ isFreeAt m' (Pt 1 1) = isFreeAt grid3 (Pt 1 1).
Proof.
  exists cornerGrid. split; [reflexivity |].
  destruct (SetObstacle_then_isFreeAt grid3 cornerGrid 1 0 eq_refl) as (H1 & H2 & _).
  split; [exact H1 | apply H2; discriminate].
Defined.

(** [SetObstacle] keeps the grid rectangular. *)
Lemma SetObstacle_rectangular (m m' : LevelMap) (x y w h : Z) :
  SetObstacle m x y = Some m' -> rectangular m w h -> rectangular m' w h.
Proof.
  unfold SetObstacle.
  destruct (index m y) as [row |] eqn:Er; [| discriminate].
  destruct (index row x) as [v |] eqn:Ec; [| discriminate].
  intros E (Hh & Hw & Hb). injection E as <-.
  unfold rectangular. rewrite length_store. split; [exact Hh |]. split; [| exact Hb].
  apply Forall_forall. intros r Hr. rewrite Forall_forall in Hw.
  apply In_nth_error in Hr. destruct Hr as [j Hj].
  destruct (Nat.eq_dec (Z.to_nat y) j) as [<- | Hne].
  - assert (Hy : 0 <= y < Z.of_nat (length m)) by (apply index_Some; eauto).
    rewrite nth_error_store_same in Hj by lia. injection Hj as <-.
    rewrite length_store. apply Hw. apply (index_In m y row Er).
  - rewrite nth_error_store_other in Hj by exact Hne.
    apply Hw. apply (nth_error_In m j Hj).
Qed.

(** X3: [SetObstacle(x, y)] panics exactly when [(x, y)] is outside the
    grid; when it returns, a rectangular grid is still rectangular with the
    same width and height. *)
Theorem SetObstacle_inside_only (m : LevelMap) (x y : Z) :
  (SetObstacle m x y = None <-> inBounds m (Pt x y) = false)
  /\ (forall m' w h, SetObstacle m x y = Some m' ->
        rectangular m w h -> rectangular m' w h).
Proof.
  split.
  - unfold SetObstacle, inBounds, cellAt. cbn [X Y].
    destruct (index m y) as [row |]; [| split; reflexivity].
    destruct (index row x); split; (discriminate || reflexivity).
  - intros m' w h. apply SetObstacle_rectangular.
Qed.

(** *** What [Neighbours] returns, whenever it returns *)

Lemma result_diagBody_Some (m : LevelMap) (p o : Point) (acc r : list Point) :
  result (diagBody m p acc o) = Some r ->
  r = if corridor m p o then acc ++ [Add p o] else acc.
Proof.
  unfold diagBody, andThen, corridor, isFreeAt, freeCell, bind, ret, result.
  destruct (cellAt m (Add p o)) as [v |]; [| discriminate].
  destruct (v =? 0); cbn; [| intros E; injection E as <-; reflexivity].
  destruct (cellAt m (Add p (Pt 0 (Y o)))) as [v1 |]; [| discriminate].
  destruct (v1 =? 0); cbn; [| intros E; injection E as <-; reflexivity].
  destruct (cellAt m (Add p (Pt (X o) 0))) as [v2 |]; [| discriminate].
  destruct (v2 =? 0); cbn; intros E; injection E as <-; reflexivity.
Qed.

Lemma result_orthBody_Some (m : LevelMap) (p o : Point) (acc r : list Point) :
  result (orthBody m p acc o) = Some r ->
  r = if freeCell m (Add p o) then acc ++ [Add p o] else acc.
Proof.
  unfold orthBody, isFreeAt, freeCell, bind, ret, result.
  destruct (cellAt m (Add p o)) as [v |]; [| discriminate].
  destruct (v =? 0); cbn; intros E; injection E as <-; reflexivity.
Qed.

Lemma result_forRange_Some {A B : Type} (body : list B -> A -> Indexed (list B))
    (c : A -> bool) (f : A -> B) (l : list A) :
  (forall o acc r, result (body acc o) = Some r ->
     r = if c o then acc ++ [f o] else acc) ->
  forall acc r, result (forRange l acc body) = Some r ->
                r = acc ++ map f (filter c l).
Proof.
  intros Hb. induction l as [| o l IH]; intros acc r; simpl.
  - intros E. injection E as <-. symmetry. apply app_nil_r.
  - rewrite result_bind. destruct (result (body acc o)) as [r1 |] eqn:E1; [| discriminate].
    intros E. apply IH in E. apply Hb in E1. subst r r1.
    destruct (c o); simpl; [rewrite <- app_assoc |]; reflexivity.
Qed.

(** The list [Neighbours] returns, whenever it returns. *)
Lemma Neighbours_Some (m : LevelMap) (p : Point) (ns : list Point) :
  result (Neighbours m p) = Some ns ->
  ns = map (Add p) (filter (corridor m p) offsetsDiag)
       ++ map (Add p) (filter (fun o => freeCell m (Add p o)) offsets).
Proof.
  unfold Neighbours. rewrite result_bind.
  destruct (result (forRange offsetsDiag [] (diagBody m p))) as [n1 |] eqn:E1;
    [| discriminate].
  intros E2.
  apply (result_forRange_Some (diagBody m p) (corridor m p) (Add p)) in E1;
    [| intros o acc r; apply result_diagBody_Some].
  apply (result_forRange_Some (orthBody m p) (fun o => freeCell m (Add p o)) (Add p))
    in E2; [| intros o acc r; apply result_orthBody_Some].
  subst. reflexivity.
Qed.

Lemma NoDup_offsets8 : NoDup offsets8.
Proof.
  unfold offsets8, offsetsDiag, offsets. simpl.
  repeat (constructor; [simpl; intros H;
    repeat (destruct H as [H | H]; [discriminate H |]); exact H |]).
  constructor.
Qed.

Lemma NoDup_filter_local {A : Type} (f : A -> bool) (l : list A) :
  NoDup l -> NoDup (filter f l).
Proof.
  induction 1 as [| a l Ha Hl IH]; simpl; [constructor |].
  destruct (f a); [| exact IH]. constructor; [| exact IH].
  intros Hin. apply filter_In in Hin. tauto.
Qed.

Lemma wrap_range (z : Z) : int_min <= wrap z <= int_max.
Proof.
  unfold wrap, int_min, int_max.
  pose proof (Z.mod_pos_bound (z + 2 ^ 63) (2 ^ 64) ltac:(lia)). lia.
Qed.

Lemma Add_offset_moves (p o : Point) : In o offsets8 -> Add p o <> p.
Proof.
  intros Ho E. destruct p as [x y]. unfold Add in E. cbn [X Y] in E.
  injection E as Ex Ey.
  assert (Hx : int_min <= x <= int_max) by (rewrite <- Ex; apply wrap_range).
  assert (Hy : int_min <= y <= int_max) by (rewrite <- Ey; apply wrap_range).
  rewrite <- (wrap_small x Hx) in Ex at 2. rewrite <- (wrap_small y Hy) in Ey at 2.
  replace x with (x + 0) in Ex at 2 by lia. replace y with (y + 0) in Ey at 2 by lia.
  pose proof (offsets8_range o Ho) as [Rx Ry].
  assert (Zx : X o = 0).
  { destruct (Z.eq_dec (X o) 0) as [H | H]; [exact H |].
    exfalso. revert Ex. apply wrap_shift_neq; lia. }
  assert (Zy : Y o = 0).
  { destruct (Z.eq_dec (Y o) 0) as [H | H]; [exact H |].
    exfalso. revert Ey. apply wrap_shift_neq; lia. }
  revert Ho. unfold offsets8, offsetsDiag, offsets. simpl. intros Ho.
  repeat (destruct Ho as [<- | Ho]; [simpl in *; lia |]). contradiction.
Qed.

(** X4: whatever the cell, whenever [Neighbours] returns, the cells it
    returns are at most 8 without a repetition, each one free, around [p]
    and different from [p]. *)
Theorem Neighbours_result_sound (m : LevelMap) (p : Point) (ns : list Point) :
  result (Neighbours m p) = Some ns ->
  NoDup ns /\ (length ns <= 8)%nat
  /\ forall q, In q ns ->
       freeCell m q = true /\ q <> p /\ exists o, In o offsets8 /\ q = Add p o.
Proof.
  intros H. apply Neighbours_Some in H. subst ns. split; [| split].
  - assert (Hinj : forall l, incl l offsets8 -> NoDup l -> NoDup (map (Add p) l)).
    { induction l as [| o l IH]; intros Hi Hn; [constructor |].
      inversion Hn as [| ? ? Ho Hl]; subst. simpl. constructor.
      - intros Hin. apply in_map_iff in Hin. destruct Hin as (o' & E & Ho').
        apply Add_offset_inj in E; [subst o'; contradiction | |];
          apply Hi; [right; exact Ho' | left; reflexivity].
      - apply IH; [intros a Ha; apply Hi; right; exact Ha | exact Hl]. }
    rewrite <- map_app. apply Hinj.
    + intros o Ho. apply in_app_or in Ho. unfold offsets8. apply in_or_app.
      destruct Ho as [Ho | Ho]; apply filter_In in Ho; tauto.
    + pose proof NoDup_offsets8 as Hn. unfold offsets8 in Hn.
      apply NoDup_app_remove_l in Hn as Hr. apply NoDup_app_remove_r in Hn as Hl.
      apply NoDup_app. 
      * apply NoDup_filter_local. exact Hl.
      * apply NoDup_filter_local. exact Hr.
      * intros o H1 H2. apply filter_In in H1. apply filter_In in H2.
        apply (offsetsDiag_not_orth o); tauto.
  - rewrite length_app, !length_map.
    pose proof (filter_length_bound (corridor m p) offsetsDiag) as H1.
    pose proof (filter_length_bound (fun o => freeCell m (Add p o)) offsets) as H2.
    change (length offsetsDiag) with 4%nat in H1.
    change (length offsets) with 4%nat in H2. lia.
  - intros q Hq. apply in_app_or in Hq.
    destruct Hq as [Hq | Hq]; apply in_map_iff in Hq;
      destruct Hq as (o & <- & Ho); apply filter_In in Ho; destruct Ho as [Ho Hc].
    + assert (H8 : In o offsets8) by (apply in_or_app; left; exact Ho).
      apply corridor_true in Hc. split; [tauto |].
      split; [apply Add_offset_moves; exact H8 | exists o; auto].
    + assert (H8 : In o offsets8) by (apply in_or_app; right; exact Ho).
      split; [exact Hc |].
      split; [apply Add_offset_moves; exact H8 | exists o; auto].
Qed.

Lemma Neighbours_result_sound_witness :
  exists ns, result (Neighbours cornerGrid (Pt 1 1)) = Some ns
             /\ NoDup ns /\ (length ns <= 8)%nat.
Proof.
  destruct (result (Neighbours cornerGrid (Pt 1 1))) as [ns |] eqn:E;
    [| vm_compute in E; discriminate E].
  exists ns. split; [reflexivity |].
  destruct (Neighbours_result_sound cornerGrid (Pt 1 1) ns E) as (H1 & H2 & _).
  split; assumption.
Defined.

Lemma Add_near_exact (m : LevelMap) (w h : Z) (p : Point) (dx dy : Z) :
  rectangular m w h -> inBounds m p = true ->
  -1 <= dx <= 1 -> -1 <= dy <= 1 ->
  Add p (Pt dx dy) = Pt (X p + dx) (Y p + dy).
Proof.
  intros Hr Hp Hx Hy. pose proof Hr as (_ & _ & Hw & Hh).
  apply (inBounds_rectangular m w h p Hr) in Hp. unfold Add. cbn [X Y].
  rewrite !wrap_small; [reflexivity | |]; unfold int_min, int_max in *; lia.
Qed.

Lemma freeCell_inBounds (m : LevelMap) (p : Point) :
  freeCell m p = true -> inBounds m p = true.
Proof. unfold freeCell, inBounds. destruct (cellAt m p); [reflexivity | discriminate]. Qed.

(** The neighbours of an in-bounds cell of a rectangular grid, by their
    coordinates. *)
Lemma In_Neighbours_iff (m : LevelMap) (w h : Z) (p q : Point) (ns : list Point) :
  rectangular m w h -> inBounds m p = true ->
  result (Neighbours m p) = Some ns ->
  (In q ns <->
   exists dx dy,
     -1 <= dx <= 1 /\ -1 <= dy <= 1 /\ (dx <> 0 \/ dy <> 0)
     /\ q = Pt (X p + dx) (Y p + dy) /\ freeCell m q = true
     /\ (dx <> 0 -> dy <> 0 ->
         freeCell m (Pt (X p) (Y p + dy)) = true
         /\ freeCell m (Pt (X p + dx) (Y p)) = true)).
Proof.
  intros Hr Bp Hns. apply Neighbours_Some in Hns. subst ns.
  assert (Ep : forall dx dy, -1 <= dx <= 1 -> -1 <= dy <= 1 ->
                Add p (Pt dx dy) = Pt (X p + dx) (Y p + dy))
    by (intros; apply (Add_near_exact m w h); assumption).
  assert (E0x : X p + 0 = X p) by lia. assert (E0y : Y p + 0 = Y p) by lia.
  split.
  - intros Hin. apply in_app_or in Hin.
    destruct Hin as [Hin | Hin]; apply in_map_iff in Hin;
      destruct Hin as (o & <- & Ho); apply filter_In in Ho; destruct Ho as [Ho Hc].
    + apply corridor_true in Hc. exists (X o), (Y o). simpl in Ho.
      repeat (destruct Ho as [<- | Ho]; [| try contradiction]);
        cbn [X Y] in *; destruct Hc as (H1 & H2 & H3);
        rewrite Ep in H1 |- * by lia; rewrite Ep in H2 by lia;
        rewrite Ep in H3 by lia; rewrite ?E0x, ?E0y in *;
        (split; [lia |]; split; [lia |]; split; [lia |]; split; [reflexivity |];
         split; [exact H1 |]; intros _ _; split; assumption).
    + exists (X o), (Y o). simpl in Ho.
      repeat (destruct Ho as [<- | Ho]; [| try contradiction]);
        cbn [X Y] in *; rewrite Ep in Hc |- * by lia;
        (split; [lia |]; split; [lia |]; split; [lia |]; split; [reflexivity |];
         split; [exact Hc |]; intros; lia).
  - intros (dx & dy & Hx & Hy & Hnz & -> & Hf & Hd).
    rewrite <- (Ep dx dy Hx Hy). apply in_or_app.
    destruct (Z.eq_dec dx 0) as [Zx | Nx]; [| destruct (Z.eq_dec dy 0) as [Zy | Ny]].
    + right. apply in_map. apply filter_In. rewrite (Ep dx dy Hx Hy).
      split; [| exact Hf]. subst dx.
      assert (C : dy = -1 \/ dy = 1) by lia.
      destruct C as [-> | ->]; simpl; tauto.
    + right. apply in_map. apply filter_In. rewrite (Ep dx dy Hx Hy).
      split; [| exact Hf]. subst dy.
      assert (C : dx = -1 \/ dx = 1) by lia.
      destruct C as [-> | ->]; simpl; tauto.
    + left. apply in_map. apply filter_In. destruct (Hd Nx Ny) as [H2 H3].
      split.
      * assert (Cx : dx = -1 \/ dx = 1) by lia. assert (Cy : dy = -1 \/ dy = 1) by lia.
        destruct Cx as [-> | ->], Cy as [-> | ->]; simpl; tauto.
      * apply corridor_true. cbn [X Y]. rewrite !Ep by lia.
        rewrite E0x, E0y. repeat split; assumption.
Qed.

(** X5: on a rectangular grid the neighbour relation is symmetric between
    free cells: when [q] is among the neighbours of the free cell [p], and
    [q] is an interior cell, [p] is among the neighbours of [q]. *)
Theorem Neighbours_symmetric (m : LevelMap) (w h : Z) (p q : Point)
    (ns : list Point) :
  rectangular m w h -> freeCell m p = true -> interior m q = true ->
  result (Neighbours m p) = Some ns -> In q ns ->
  exists ns', result (Neighbours m q) = Some ns' /\ In p ns'.
Proof.
  intros Hr Hp Hq Hns Hin.
  pose proof (freeCell_inBounds m p Hp) as Bp.
  apply (In_Neighbours_iff m w h p q ns Hr Bp Hns) in Hin.
  destruct Hin as (dx & dy & Hx & Hy & Hnz & -> & Hf & Hd).
  eexists. split; [apply Neighbours_interior; exact Hq |].
  apply (In_Neighbours_iff m w h (Pt (X p + dx) (Y p + dy)) p _ Hr
           (freeCell_inBounds m _ Hf) (Neighbours_interior m _ Hq)).
  exists (- dx), (- dy). cbn [X Y].
  split; [lia |]. split; [lia |]. split; [lia |]. split.
  - destruct p as [x y]. cbn [X Y]. f_equal; lia.
  - split; [exact Hp |]. intros Nx Ny.
    destruct Hd as [H2 H3]; [lia | lia |].
    split.
    + replace (Y p + dy + - dy) with (Y p) by lia. exact H3.
    + replace (X p + dx + - dx) with (X p) by lia. exact H2.
Qed.

Lemma Neighbours_symmetric_witness :
  exists ns ns',
    result (Neighbours (repeat (repeat 0 5%nat) 5%nat) (Pt 1 1)) = Some ns
    /\ In (Pt 2 2) ns
    /\ result (Neighbours (repeat (repeat 0 5%nat) 5%nat) (Pt 2 2)) = Some ns'
    /\ In (Pt 1 1) ns'.
Proof.
  assert (Hr : rectangular (repeat (repeat 0 5%nat) 5%nat) 5 5).
  { unfold rectangular, int_max. split; [reflexivity |].
    split; [repeat constructor | split; lia]. }
  destruct (result (Neighbours (repeat (repeat 0 5%nat) 5%nat) (Pt 1 1)))
    as [ns |] eqn:E; [| vm_compute in E; discriminate E].
  assert (Hin : In (Pt 2 2) ns).
  { vm_compute in E. injection E as <-. simpl. tauto. }
  destruct (Neighbours_symmetric _ 5 5 (Pt 1 1) (Pt 2 2) ns Hr eq_refl eq_refl E Hin)
    as (ns' & H1 & H2).
  exists ns, ns'. repeat split; assumption.
Defined.

Lemma simplifyLoop_nonempty (rest : list Point) :
  forall p prev, simplifyLoop (p :: rest) prev [] <> [].
Proof.
  induction rest as [| q rest IH]; intros p prev; [discriminate |].
  rewrite simplifyLoop_step. destruct (Point_eqb prev (Sub q p)); [apply IH |].
  rewrite simplifyLoop_app. discriminate.
Qed.

Lemma last_cons_nonempty {A : Type} (a d : A) (l : list A) :
  l <> [] -> last (a :: l) d = last l d.
Proof. destruct l; [contradiction | reflexivity]. Qed.

Lemma simplifyLoop_subsequence (path : list Point) :
  forall prev d,
    subsequence (simplifyLoop path prev []) path
    /\ last (simplifyLoop path prev []) d = last path d.
Proof.
  induction path as [| p rest IH]; intros prev d; [split; [constructor | reflexivity] |].
  destruct rest as [| q rest].
  - simpl. split; [apply subsequence_keep; constructor | reflexivity].
  - rewrite simplifyLoop_step. destruct (Point_eqb prev (Sub q p)).
    + destruct (IH prev d) as [Hs Hl]. split; [constructor; exact Hs |].
      rewrite Hl. symmetry. apply last_cons_nonempty. discriminate.
    + rewrite simplifyLoop_app. cbn [app]. destruct (IH (Sub q p) d) as [Hs Hl].
      split; [apply subsequence_keep; exact Hs |].
      rewrite last_cons_nonempty by apply simplifyLoop_nonempty.
      rewrite Hl. symmetry. apply last_cons_nonempty. discriminate.
Qed.

(** X6: [simplifyPath] only leaves points out: its output is the input with
    some points dropped, in the same order; the last point is always kept,
    and a non-empty path stays non-empty. *)
Theorem simplifyPath_keeps_order_and_end (path : list Point) (d : Point) :
  subsequence (simplifyPath path) path
  /\ last (simplifyPath path) d = last path d
  /\ (path <> [] -> simplifyPath path <> []).
Proof.
  unfold simplifyPath. destruct (simplifyLoop_subsequence path (Pt 0 0) d) as [Hs Hl].
  split; [exact Hs |]. split; [exact Hl |].
  destruct path as [| p rest]; [intros N; contradiction N; reflexivity |].
  intros _. apply simplifyLoop_nonempty.
Qed.

Lemma Sub_ray_step (p d : Point) (k : Z) :
  int_min <= X d <= int_max -> int_min <= Y d <= int_max ->
  Sub (ray p d (k + 1)) (ray p d k) = d.
Proof.
  intros Hx Hy. unfold Sub, ray. cbn [X Y]. destruct d as [dx dy]. cbn [X Y] in *.
  replace (X p + (k + 1) * dx - (X p + k * dx)) with dx by ring.
  replace (Y p + (k + 1) * dy - (Y p + k * dy)) with dy by ring.
  rewrite !wrap_small by assumption. reflexivity.
Qed.

Lemma simplifyLoop_straight (p d : Point) (n : nat) :
  int_min <= X d <= int_max -> int_min <= Y d <= int_max ->
  forall k, simplifyLoop (map (fun i => ray p d (Z.of_nat i)) (seq k (S n))) d []
            = [ray p d (Z.of_nat (k + n))].
Proof.
  intros Hx Hy. induction n as [| n IH]; intros k.
  - simpl. rewrite Nat.add_0_r. reflexivity.
  - change (seq k (S (S n))) with (k :: S k :: seq (S (S k)) n).
    cbn [map]. rewrite simplifyLoop_step.
    replace (Z.of_nat (S k)) with (Z.of_nat k + 1) by lia.
    rewrite (Sub_ray_step p d _ Hx Hy).
    rewrite (proj2 (Point_eqb_eq d d) eq_refl).
    replace (Z.of_nat k + 1) with (Z.of_nat (S k)) by lia.
    change (ray p d (Z.of_nat (S k)) :: map (fun i => ray p d (Z.of_nat i)) (seq (S (S k)) n))
      with (map (fun i => ray p d (Z.of_nat i)) (seq (S k) (S n))).
    rewrite IH. f_equal. f_equal. lia.
Qed.

(** X7: [simplifyPath] collapses a straight run to its two ends: a path of
    two or more equal non-zero steps [d] from [p] becomes [p] and the last
    point. *)
Theorem simplifyPath_straight (p d : Point) (n : nat) :
  d <> Pt 0 0 -> int_min <= X d <= int_max -> int_min <= Y d <= int_max ->
  simplifyPath (straight p d (S n)) = [p; ray p d (Z.of_nat (S n))].
Proof.
  intros Hd Hx Hy. unfold simplifyPath, straight.
  change (seq 0 (S (S n))) with (0%nat :: 1%nat :: seq 2 n).
  cbn [map]. rewrite simplifyLoop_step.
  change (Z.of_nat 1) with (Z.of_nat 0 + 1).
  rewrite (Sub_ray_step p d _ Hx Hy).
  destruct (Point_eqb (Pt 0 0) d) eqn:E;
    [apply Point_eqb_eq in E; symmetry in E; contradiction |].
  rewrite simplifyLoop_app.
  change (ray p d (Z.of_nat 0 + 1) :: map (fun i => ray p d (Z.of_nat i)) (seq 2 n))
    with (map (fun i => ray p d (Z.of_nat i)) (seq 1 (S n))).
  rewrite (simplifyLoop_straight p d n Hx Hy 1). cbn [app].
  change (Z.of_nat 0) with 0. rewrite ray_zero. reflexivity.
Qed.

Lemma simplifyPath_straight_witness :
  simplifyPath [Pt 2 5; Pt 3 4; Pt 4 3; Pt 5 2; Pt 6 1] = [Pt 2 5; Pt 6 1].
Proof.
  assert (Hd : Pt 1 (-1) <> Pt 0 0) by discriminate.
  assert (Hx : int_min <= X (Pt 1 (-1)) <= int_max)
    by (unfold int_min, int_max; simpl; lia).
  assert (Hy : int_min <= Y (Pt 1 (-1)) <= int_max)
    by (unfold int_min, int_max; simpl; lia).
  exact (simplifyPath_straight (Pt 2 5) (Pt 1 (-1)) 3 Hd Hx Hy).
Defined.

(** X8: on a grid path [simplifyPath] keeps the first point. *)
Theorem simplifyPath_keeps_start (p : Point) (rest : list Point) :
  gridPath (p :: rest) = true ->
  exists out, simplifyPath (p :: rest) = p :: out.
Proof.
  intros Hg. unfold simplifyPath.
  destruct (simplifyLoop_runs rest p (Pt 0 0) Hg) as (k & o & out & _ & Es & Eo & _).
  exists out. rewrite Es. f_equal. rewrite Eo. unfold ray. destruct p as [x y].
  cbn [X Y]. f_equal; lia.
Qed.

Lemma simplifyPath_keeps_start_witness :
  exists out, simplifyPath [Pt 3 3; Pt 3 2; Pt 3 1; Pt 4 0] = Pt 3 3 :: out.
Proof.
  exact (simplifyPath_keeps_start (Pt 3 3) [Pt 3 2; Pt 3 1; Pt 4 0] eq_refl).
Defined.

(** ** More on [Shoot] *)

(** X9: [Shoot] panics in one case only: a shot is fired (a state in which
    a click fires, [Ammo >= 1]) and the first mob-tagged object on the line
    of fire carries no zombie, so that the type assertion fails. *)
Theorem Shoot_panics_iff (g : GameScreen) :
  Shoot g = None
  <-> canFire (Player.State (ThePlayer g)) = true
      /\ 1 <= Player.Ammo (ThePlayer g)
      /\ exists o, firstMob (Space.CellsInLineOfFire (TheSpace g)) = Some o
                   /\ forall r, Data o <> DataZombie r.
Proof.
  rewrite <- scanCells_firstMob. unfold Shoot.
  destruct (Player.State (ThePlayer g)); simpl canFire;
    try (split; [discriminate | intros (H & _); discriminate H]);
    (destruct (Z.ltb_spec (Player.Ammo (ThePlayer g)) 1) as [Ha | Ha];
     [ split; [discriminate | intros (_ & H & _); lia ] |];
     cbv zeta; cbn [TheSpace setPlayer audio];
     destruct (scanCells (Space.CellsInLineOfFire (TheSpace g))) as [o |];
     [ destruct (Data o) as [r | n |] eqn:Ed;
       [ split; [discriminate |];
         intros (_ & _ & o' & Eo & Hn); injection Eo as <-;
         exfalso; apply (Hn r); exact Ed
       | split; [| reflexivity]; intros _;
         split; [reflexivity |]; split; [lia |];
         exists o; split; [reflexivity |]; intros r; rewrite Ed; discriminate
       | split; [| reflexivity]; intros _;
         split; [reflexivity |]; split; [lia |];
         exists o; split; [reflexivity |]; intros r; rewrite Ed; discriminate ]
     | split; [discriminate | intros (_ & _ & o & Eo & _); discriminate Eo] ]).
Qed.

(** X10: whenever [Shoot] returns it leaves the tick, the dog, the space,
    the checkpoint and the victory flag alone and only adds audio calls after
    the earlier ones; [Ammo] is either unchanged or, having been at least 1,
    decremented by one with the player put in [playerShooting]. *)
Theorem Shoot_frame (g g' : GameScreen) :
  Shoot g = Some g' ->
  Tick g' = Tick g /\ TheDog g' = TheDog g /\ TheSpace g' = TheSpace g
  /\ Checkpoint g' = Checkpoint g /\ BossDefeated g' = BossDefeated g
  /\ (exists played, Audio g' = Audio g ++ played)
  /\ (Player.Ammo (ThePlayer g') = Player.Ammo (ThePlayer g)
      \/ (1 <= Player.Ammo (ThePlayer g)
          /\ Player.Ammo (ThePlayer g') = wrap (Player.Ammo (ThePlayer g) - 1)
          /\ Player.State (ThePlayer g') = Player.playerShooting)).
Proof.
  unfold Shoot.
  assert (Hi : forall g1, Some (interruptReload g) = Some g1 ->
    Tick g1 = Tick g /\ TheDog g1 = TheDog g /\ TheSpace g1 = TheSpace g
    /\ Checkpoint g1 = Checkpoint g /\ BossDefeated g1 = BossDefeated g
    /\ (exists played, Audio g1 = Audio g ++ played)
    /\ (Player.Ammo (ThePlayer g1) = Player.Ammo (ThePlayer g)
        \/ (1 <= Player.Ammo (ThePlayer g)
            /\ Player.Ammo (ThePlayer g1) = wrap (Player.Ammo (ThePlayer g) - 1)
            /\ Player.State (ThePlayer g1) = Player.playerShooting))).
  { intros g1 E. injection E as <-. simpl. repeat split.
    - eexists. rewrite <- !app_assoc. reflexivity.
    - left. reflexivity. }
  assert (Hn : forall g1, Some g = Some g1 ->
    Tick g1 = Tick g /\ TheDog g1 = TheDog g /\ TheSpace g1 = TheSpace g
    /\ Checkpoint g1 = Checkpoint g /\ BossDefeated g1 = BossDefeated g
    /\ (exists played, Audio g1 = Audio g ++ played)
    /\ (Player.Ammo (ThePlayer g1) = Player.Ammo (ThePlayer g)
        \/ (1 <= Player.Ammo (ThePlayer g)
            /\ Player.Ammo (ThePlayer g1) = wrap (Player.Ammo (ThePlayer g) - 1)
            /\ Player.State (ThePlayer g1) = Player.playerShooting))).
  { intros g1 E. injection E as <-. repeat split.
    - exists []. symmetry. apply app_nil_r.
    - left. reflexivity. }
  destruct (Player.State (ThePlayer g)); try apply Hn; try apply Hi;
    (destruct (Z.ltb_spec (Player.Ammo (ThePlayer g)) 1) as [Ha | Ha]; [apply Hi |];
     cbv zeta; cbn [TheSpace setPlayer audio];
     destruct (scanCells (Space.CellsInLineOfFire (TheSpace g))) as [o |];
     [ destruct (Data o); try discriminate |];
     intros E; injection E as <-; simpl; repeat split;
     try (eexists; rewrite <- !app_assoc; reflexivity);
     right; repeat split; lia).
Qed.

(** X11: after a shot has been fired, a second [Shoot] on the resulting
    state does nothing: no second shot while the player is in
    [playerShooting]. *)
Theorem Shoot_once_per_shooting_state (g g' : GameScreen) :
  canFire (Player.State (ThePlayer g)) = true ->
  1 <= Player.Ammo (ThePlayer g) ->
  Shoot g = Some g' ->
  Shoot g' = Some g'.
Proof.
  intros Hs Ha. unfold Shoot at 1.
  assert (Hlt : (Player.Ammo (ThePlayer g) <? 1) = false) by (apply Z.ltb_ge; lia).
  destruct (Player.State (ThePlayer g)); try discriminate Hs;
    rewrite Hlt; cbv zeta; cbn [TheSpace setPlayer audio];
    (destruct (scanCells (Space.CellsInLineOfFire (TheSpace g))) as [o |];
     [ destruct (Data o); try discriminate |];
     intros E; injection E as <-; reflexivity).
Qed.

Lemma Shoot_frame_witness :
  exists g', Shoot (screenWith (Player.Make (Player.playerOther 0) 6) lineOfFire) = Some g'
    /\ Checkpoint g' = 0 /\ Player.Ammo (ThePlayer g') = 5
    /\ Player.State (ThePlayer g') = Player.playerShooting.
Proof.
  destruct (Shoot (screenWith (Player.Make (Player.playerOther 0) 6) lineOfFire))
    as [g' |] eqn:E; [| vm_compute in E; discriminate E].
  exists g'. split; [reflexivity |].
  destruct (Shoot_frame _ g' E) as (_ & _ & _ & Hc & _ & _ & Ha).
  split; [exact Hc |].
  destruct Ha as [Ha | (_ & Ha & Hs)].
  - exfalso. vm_compute in E. injection E as <-. discriminate Ha.
  - split; [exact Ha | exact Hs].
Defined.

Lemma Shoot_once_per_shooting_state_witness :
  exists g', Shoot (screenWith (Player.Make Player.playerDryFire 2) lineOfFire) = Some g'
    /\ Shoot g' = Some g'.
Proof.
  destruct (Shoot (screenWith (Player.Make Player.playerDryFire 2) lineOfFire))
    as [g' |] eqn:E; [| vm_compute in E; discriminate E].
  exists g'. split; [reflexivity |].
  apply (Shoot_once_per_shooting_state
           (screenWith (Player.Make Player.playerDryFire 2) lineOfFire) g');
    [reflexivity | simpl; lia | exact E].
Defined.

(** ** More on [Update] *)

(** X12: when, after the entity updates, a zombie has caught the player,
    [Update] returns [gameOver] at once, whatever else holds in that tick
    (a checkpoint, the End entity, a zombie on the dog): the music is paused
    and rewound, the death sound rewound and played, and neither the
    checkpoint nor the dog is touched. *)
Theorem Update_player_caught_first (E : Collaborators) (g g1 : GameScreen) :
  updateEntities E g = Some g1 ->
  playerCaught g1 = true ->
  exists g', Update E g = Some (gameOver, g')
    /\ Checkpoint g' = Checkpoint g1 /\ TheDog g' = TheDog g1
    /\ Audio g' = Audio g1 ++ [ OnSound soundMusicBackground Pause
                              ; OnSound soundMusicBackground Rewind
                              ; OnSound soundPlayerDies Rewind
                              ; OnSound soundPlayerDies Play ].
Proof.
  intros He Hc. unfold Update, respondToCollisions. rewrite He, Hc.
  eexists. split; [reflexivity |]. simpl. rewrite <- !app_assoc. auto.
Qed.

Lemma Update_player_caught_first_witness :
  exists g',
    Update idleTick (screenWith (Player.Make (Player.playerOther 0) 6) everythingAtOnce)
    = Some (gameOver, g')
    /\ Checkpoint g' = 0 /\ Dog.Mode (TheDog g') = Dog.dogWalking.
Proof.
  destruct (Update_player_caught_first idleTick
              (screenWith (Player.Make (Player.playerOther 0) 6) everythingAtOnce)
              _ eq_refl eq_refl) as (g' & H1 & H2 & H3 & _).
  exists g'. split; [exact H1 |]. split; [exact H2 | rewrite H3; reflexivity].
Defined.

(** X13: what each result of [Update] tells about the tick, [g1] being the
    state after the entity updates. [gameRunning]: the player is not caught
    and not at the End entity, no zombie is on the dog, and the dog is not
    dead. [gameWon]: the player is at the End entity and not caught.
    [gameOver]: the player is caught, or the dog is dead (caught in this
    tick or dead before) while the player is not at the End entity. *)
Theorem Update_outcome (E : Collaborators) (g g' : GameScreen) (st : GameState) :
  Update E g = Some (st, g') ->
  exists g1, updateEntities E g = Some g1
    /\ match st with
       | gameRunning =>
           playerCaught g1 = false /\ reachedEnd g1 = false /\ dogCaught g1 = false
           /\ Dog.Mode (TheDog g1) <> Dog.dogDead /\ TheDog g' = TheDog g1
       | gameWon => playerCaught g1 = false /\ reachedEnd g1 = true
       | gameOver =>
           playerCaught g1 = true
           \/ (reachedEnd g1 = false /\ Dog.Mode (TheDog g') = Dog.dogDead
               /\ (dogCaught g1 = true \/ Dog.Mode (TheDog g1) = Dog.dogDead))
       end.
Proof.
  unfold Update. destruct (updateEntities E g) as [g1 |]; [| discriminate].
  intros H. exists g1. split; [reflexivity |]. revert H.
  unfold respondToCollisions. destruct (playerCaught g1).
  - intros Eq. injection Eq as <- <-. left. reflexivity.
  - destruct (reachCheckpoint g1) as [g2 |] eqn:Ec; [| discriminate].
    destruct (reachCheckpoint_frame g1 g2 Ec) as (Hsp & Hdog & _).
    assert (Hend : reachedEnd g2 = reachedEnd g1)
      by (unfold reachedEnd; rewrite Hsp; reflexivity).
    assert (Hdc : dogCaught g2 = dogCaught g1)
      by (unfold dogCaught; rewrite Hsp; reflexivity).
    rewrite Hend, Hdc. destruct (reachedEnd g1).
    + intros Eq. injection Eq as <- <-. auto.
    + destruct (dogCaught g1); cbv zeta.
      * simpl. intros Eq. injection Eq as <- <-. right. simpl. auto.
      * destruct (Dog.mode_eqb (Dog.Mode (TheDog g2)) Dog.dogDead) eqn:Em;
          intros Eq; injection Eq as <- <-.
        -- apply mode_eqb_dead in Em. right. simpl. rewrite <- Hdog. auto.
        -- repeat split; try exact Hdog.
           intros N. rewrite Hdog, N in Em. discriminate Em.
Qed.

Lemma Update_outcome_witness :
  exists g', Update idleTick (screenWith (Player.Make (Player.playerOther 0) 6) quietSpace)
             = Some (gameRunning, g')
    /\ Dog.Mode (TheDog g') = Dog.dogWalking.
Proof.
  destruct (Update idleTick (screenWith (Player.Make (Player.playerOther 0) 6) quietSpace))
    as [[st g'] |] eqn:E; [| vm_compute in E; discriminate E].
  assert (Hst : st = gameRunning) by (vm_compute in E; injection E as <- _; reflexivity).
  subst st. exists g'. split; [reflexivity |].
  destruct (Update_outcome idleTick _ g' gameRunning E) as (g1 & He & _ & _ & _ & _ & Hd).
  rewrite Hd. vm_compute in He. injection He as <-. reflexivity.
Defined.

(** X14: the checkpoint block of [Update] panics exactly when the player
    overlaps the checkpoint object found at it and either that object
    carries no [int], or its number is greater than [Checkpoint] and has
    no voice (its index, the number minus one, is outside the 7 voices). *)
Theorem reachCheckpoint_panics_iff (g : GameScreen) :
  reachCheckpoint g = None
  <-> exists c,
        Space.CheckPlayer (TheSpace g) tagCheckpoint = Some c
        /\ Space.PlayerOverlaps (TheSpace g) (first c) = true
        /\ match Data (first c) with
           | DataInt n =>
               Checkpoint g < n
               /\ ~ (0 <= wrap (n - 1) < checkpointVoices)
           | _ => True
           end.
Proof.
  unfold reachCheckpoint.
  destruct (Space.CheckPlayer (TheSpace g) tagCheckpoint) as [c |];
    [| split; [discriminate | intros (c & Hc & _); discriminate Hc]].
  destruct (Space.PlayerOverlaps (TheSpace g) (first c)) eqn:Eo.
  - destruct (Data (first c)) as [r | n |] eqn:Ed.
    + split; [| reflexivity]. intros _. exists c. rewrite Ed. auto.
    + destruct (Z.ltb_spec (Checkpoint g) n) as [Hlt | Hge].
      * cbv zeta. change (Checkpoint (setCheckpoint g n)) with n.
        destruct ((0 <=? wrap (n - 1)) && (wrap (n - 1) <? checkpointVoices)) eqn:Ei.
        -- apply andb_true_iff in Ei. destruct Ei as [H1 H2].
           apply Z.leb_le in H1. apply Z.ltb_lt in H2.
           split; [discriminate |]. intros (c' & Hc & _ & Hd).
           injection Hc as <-. rewrite Ed in Hd. destruct Hd as [_ Hd]. lia.
        -- split; [| reflexivity]. intros _. exists c. rewrite Ed.
           split; [reflexivity |]. split; [exact Eo |]. split; [exact Hlt |].
           intros [H1 H2]. apply Z.leb_le in H1. apply Z.ltb_lt in H2.
           rewrite H1, H2 in Ei. discriminate Ei.
      * split; [discriminate |]. intros (c' & Hc & _ & Hd).
        injection Hc as <-. rewrite Ed in Hd. lia.
    + split; [| reflexivity]. intros _. exists c. rewrite Ed. auto.
  - split; [discriminate |]. intros (c' & Hc & Ho & _).
    injection Hc as <-. rewrite Eo in Ho. discriminate Ho.
Qed.

(** ** More on the boss *)

Ltac split_hits :=
  repeat match goal with
         | |- context [?a =? ?b] => destruct (Z.eqb_spec a b)
         end.

Lemma selectState_death_cases (daemon : bool) (hitToDie : Z) (zs : Zombie.state)
    (cur : Boss.animationTags) :
  (selectState daemon hitToDie zs cur = bossDeath1 ->
     cur = bossDeath1 \/ (hitToDie = 2 /\ zs = Zombie.zombieHit))
  /\ (selectState daemon hitToDie zs cur = bossDeath2 ->
     cur = bossDeath2 \/ (hitToDie = 1 /\ zs = Zombie.zombieHit)).
Proof.
  unfold selectState. destruct daemon; split_hits; cbn [orb];
    destruct zs; repeat split; intros H; try discriminate H; auto.
Qed.

(** X15: the switches at the head of [Boss.Update] select a death animation
    on a hit only: [bossDeath1] is selected for [HitToDie = 2] with the
    inner zombie hit, [bossDeath2] for [HitToDie = 1] with the inner zombie
    hit, otherwise the boss was in that state already; [bossPhase2] is
    never selected. *)
Theorem selectState_deaths (daemon : bool) (hitToDie : Z) (zs : Zombie.state)
    (cur : Boss.animationTags) :
  (selectState daemon hitToDie zs cur = bossDeath1 ->
     cur = bossDeath1 \/ (hitToDie = 2 /\ zs = Zombie.zombieHit))
  /\ (selectState daemon hitToDie zs cur = bossDeath2 ->
     cur = bossDeath2 \/ (hitToDie = 1 /\ zs = Zombie.zombieHit))
  /\ (selectState daemon hitToDie zs cur = bossPhase2 -> cur = bossPhase2).
Proof.
  unfold selectState. destruct daemon; split_hits; cbn [orb];
    destruct zs; repeat split; intros H; try discriminate H; auto.
Qed.

(** X16: the two phases of the boss select the same state for [HitToDie]
    1 and 2; outside of that range phase 2 leaves the state as it is, as does
    phase 1 outside of 1..10, and either phase when the inner zombie is
    dead. *)
Theorem selectState_phases_agree (hitToDie : Z) (zs : Zombie.state)
    (cur : Boss.animationTags) :
  (1 <= hitToDie <= 2 ->
     selectState true hitToDie zs cur = selectState false hitToDie zs cur)
  /\ (hitToDie < 1 \/ 2 < hitToDie -> selectState true hitToDie zs cur = cur)
  /\ (hitToDie < 1 \/ 10 < hitToDie -> selectState false hitToDie zs cur = cur)
  /\ (zs = Zombie.zombieDead -> forall daemon, selectState daemon hitToDie zs cur = cur).
Proof.
  unfold selectState. repeat split.
  - intros H. split_hits; cbn [orb]; try reflexivity; lia.
  - intros H. split_hits; cbn [orb]; try reflexivity; lia.
  - intros H. split_hits; cbn [orb]; try reflexivity; lia.
  - intros -> daemon. destruct daemon; split_hits; cbn [orb]; reflexivity.
Qed.

Lemma selectState_phases_agree_witness :
  selectState true 1 Zombie.zombieHit bossRunning
  = selectState false 1 Zombie.zombieHit bossRunning
  /\ selectState true 7 Zombie.zombieHit bossRunning = bossRunning.
Proof.
  destruct (selectState_phases_agree 1 Zombie.zombieHit bossRunning) as (H1 & _).
  destruct (selectState_phases_agree 7 Zombie.zombieHit bossRunning) as (_ & H2 & _).
  split; [apply H1; lia | apply H2; lia].
Defined.

(** [Boss.Update] on a living boss, with the state selected and the frame
    advanced. *)
Lemma BossUpdate_alive (E : BossCollaborators) (g : GameScreen) (z : Boss.t) :
  Dead z = false ->
  BossUpdate E g z
  = let inner := Zombies g (ZombieRef z) in
    let z1 := setState z (selectState (Daemon z) (Zombie.HitToDie inner)
                            (Zombie.State inner) (State z)) in
    let z2 := setFrame z1 (Animate E (Frame z1) (Tick g) (FrameTags E (State z1))) in
    let (g', z') :=
      if animationComplete E z2 then outterAnimationBasedStateChanges E g z2
      else (g, z2) in
    if animationTags_eqb (State z') bossDeath1
       || animationTags_eqb (State z') bossDeath2
       || animationTags_eqb (State z') bossPhase2
    then (g', z', None)
    else let (g'', err) := ZombieUpdate E g' (ZombieRef z') in (g'', z', err).
Proof. intros H. unfold BossUpdate. rewrite H. reflexivity. Qed.

(** X17: within [Boss.Update] a living boss becomes dead in one way only:
    the [bossDeath2] animation reaches its last frame. The update then
    returns no error, has played the death-2 sound and set
    [g.BossDefeated]; the boss was in [bossDeath2] already or its inner
    zombie was hit with [HitToDie = 1]. *)
Theorem Boss_dies_only_after_death2 (E : BossCollaborators) (g g' : GameScreen)
    (z z' : Boss.t) (err : option error) :
  Dead z = false ->
  BossUpdate E g z = (g', z', err) ->
  Dead z' = true ->
  State z' = bossDeath2
  /\ Frame z' = To (FrameTags E bossDeath2)
  /\ err = None
  /\ BossDefeated g' = true
  /\ Audio g' = Audio g ++ [OnSound soundBigZombieDeath2 Play]
  /\ (State z = bossDeath2
      \/ (Zombie.HitToDie (Zombies g (ZombieRef z)) = 1
          /\ Zombie.State (Zombies g (ZombieRef z)) = Zombie.zombieHit)).
Proof.
  intros Hd Hu Hd'. rewrite (BossUpdate_alive E g z Hd) in Hu. cbv zeta in Hu.
  pose proof (selectState_death_cases (Daemon z)
                (Zombie.HitToDie (Zombies g (ZombieRef z)))
                (Zombie.State (Zombies g (ZombieRef z))) (State z)) as (_ & Hsel).
  revert Hu Hsel. unfold animationComplete, outterAnimationBasedStateChanges.
  cbn [setState setFrame State Frame ZombieRef Daemon Dead].
  set (s := selectState _ _ _ _).
  set (f := Animate E (Frame z) (Tick g) (FrameTags E s)).
  intros Hu Hsel.
  destruct (f =? To (FrameTags E s)) eqn:Ef.
  - apply Z.eqb_eq in Ef.
    destruct s eqn:Es; cbn in Hu;
      try (destruct (ZombieUpdate E _ _) as [g'' err''] in Hu);
      injection Hu as <- <- <-; cbn in Hd'; try congruence.
    cbn. repeat split; try assumption. apply Hsel. reflexivity.
  - destruct s eqn:Es; cbn in Hu;
      try (destruct (ZombieUpdate E _ _) as [g'' err''] in Hu);
      injection Hu as <- <- <-; cbn in Hd'; congruence.
Qed.

Lemma Boss_dies_only_after_death2_witness :
  exists g' z',
    BossUpdate instantBoss (bossScreen 1 Zombie.zombieHit) (bossAt bossRunning true)
    = (g', z', None)
    /\ Dead z' = true /\ State z' = bossDeath2 /\ BossDefeated g' = true.
Proof.
  destruct (BossUpdate instantBoss (bossScreen 1 Zombie.zombieHit)
              (bossAt bossRunning true)) as [[g' z'] err] eqn:Eu.
  assert (Hd : Dead z' = true) by (vm_compute in Eu; injection Eu as _ <- _; reflexivity).
  destruct (Boss_dies_only_after_death2 instantBoss (bossScreen 1 Zombie.zombieHit) g'
              (bossAt bossRunning true) z' err eq_refl Eu Hd)
    as (H1 & _ & H3 & H4 & _).
  exists g', z'. subst err. repeat split; assumption.
Defined.

(** X18: within [Boss.Update] a living boss of phase 1 becomes a daemon in
    one way only: the [bossDeath1] animation reaches its last frame. The
    boss is then in [bossPhase2] and alive, the speed is twice the sprinter
    speed, [HitToDie] and [g.BossDefeated] are as before and the death-1
    sound has been played; the boss was in [bossDeath1] already or its
    inner zombie was hit with [HitToDie = 2]. *)
Theorem Boss_enters_phase2_only_after_death1 (E : BossCollaborators)
    (g g' : GameScreen) (z z' : Boss.t) (err : option error) :
  Dead z = false -> Daemon z = false ->
  BossUpdate E g z = (g', z', err) ->
  Daemon z' = true ->
  State z' = bossPhase2
  /\ Dead z' = false
  /\ err = None
  /\ Zombie.Speed (Zombies g' (ZombieRef z')) = (zombieSprinterSpeed E * 2)%float
  /\ Zombie.HitToDie (Zombies g' (ZombieRef z'))
     = Zombie.HitToDie (Zombies g (ZombieRef z))
  /\ BossDefeated g' = BossDefeated g
  /\ Audio g' = Audio g ++ [OnSound soundBigZombieDeath1 Play]
  /\ (State z = bossDeath1
      \/ (Zombie.HitToDie (Zombies g (ZombieRef z)) = 2
          /\ Zombie.State (Zombies g (ZombieRef z)) = Zombie.zombieHit)).
Proof.
  intros Hd Hda Hu Hd'. rewrite (BossUpdate_alive E g z Hd) in Hu. cbv zeta in Hu.
  pose proof (selectState_death_cases (Daemon z)
                (Zombie.HitToDie (Zombies g (ZombieRef z)))
                (Zombie.State (Zombies g (ZombieRef z))) (State z)) as (Hsel & _).
  revert Hu Hsel. unfold animationComplete, outterAnimationBasedStateChanges.
  cbn [setState setFrame State Frame ZombieRef Daemon Dead].
  set (s := selectState _ _ _ _).
  set (f := Animate E (Frame z) (Tick g) (FrameTags E s)).
  intros Hu Hsel.
  destruct (f =? To (FrameTags E s)) eqn:Ef.
  - destruct s eqn:Es; cbn in Hu;
      try (destruct (ZombieUpdate E _ _) as [g'' err''] in Hu);
      injection Hu as <- <- <-; cbn in Hd'; try congruence.
    cbn. rewrite !Nat.eqb_refl. cbn.
    repeat split; try assumption. apply Hsel. reflexivity.
  - destruct s eqn:Es; cbn in Hu;
      try (destruct (ZombieUpdate E _ _) as [g'' err''] in Hu);
      injection Hu as <- <- <-; cbn in Hd'; congruence.
Qed.

Lemma Boss_enters_phase2_only_after_death1_witness :
  exists g' z',
    BossUpdate instantBoss (bossScreen 2 Zombie.zombieHit) (bossAt bossWalking3 false)
    = (g', z', None)
    /\ Daemon z' = true /\ State z' = bossPhase2
    /\ Audio g' = [OnSound soundBigZombieDeath1 Play].
Proof.
  destruct (BossUpdate instantBoss (bossScreen 2 Zombie.zombieHit)
              (bossAt bossWalking3 false)) as [[g' z'] err] eqn:Eu.
  assert (Hd : Daemon z' = true)
    by (vm_compute in Eu; injection Eu as _ <- _; reflexivity).
  destruct (Boss_enters_phase2_only_after_death1 instantBoss
              (bossScreen 2 Zombie.zombieHit) g' (bossAt bossWalking3 false) z' err
              eq_refl eq_refl Eu Hd) as (H1 & _ & H3 & _ & _ & _ & H7 & _).
  exists g', z'. subst err. repeat split; assumption.
Defined.

(** X19: [Boss.Update] never reverts a flag: a daemon stays a daemon, the
    boss keeps its inner zombie, and on a dead boss the update returns an
    error and changes nothing. *)
Theorem Boss_flags_never_revert (E : BossCollaborators) (g g' : GameScreen)
    (z z' : Boss.t) (err : option error) :
  BossUpdate E g z = (g', z', err) ->
  ZombieRef z' = ZombieRef z
  /\ (Daemon z = true -> Daemon z' = true)
  /\ (Dead z = true -> g' = g /\ z' = z /\ err <> None).
Proof.
  intros Hu. destruct (Dead z) eqn:Hd.
  - unfold BossUpdate in Hu. rewrite Hd in Hu. injection Hu as <- <- <-.
    repeat split; auto. discriminate.
  - rewrite (BossUpdate_alive E g z Hd) in Hu. cbv zeta in Hu.
    revert Hu. unfold animationComplete, outterAnimationBasedStateChanges.
    cbn [setState setFrame State Frame ZombieRef Daemon Dead].
    set (s := selectState _ _ _ _).
    set (f := Animate E (Frame z) (Tick g) (FrameTags E s)).
    intros Hu.
    destruct (f =? To (FrameTags E s));
      destruct s; cbn in Hu;
      try (destruct (ZombieUpdate E _ _) as [g'' err''] in Hu);
      injection Hu as <- <- <-; cbn;
      (split; [reflexivity |]; split; [auto | discriminate]).
Qed.

Lemma Boss_flags_never_revert_witness :
  exists g' z' err,
    BossUpdate sampleBoss (bossScreen 2 Zombie.zombieWalking) (bossAt bossRunning true)
    = (g', z', err)
    /\ Daemon z' = true.
Proof.
  destruct (BossUpdate sampleBoss (bossScreen 2 Zombie.zombieWalking)
              (bossAt bossRunning true)) as [[g' z'] err] eqn:Eu.
  destruct (Boss_flags_never_revert sampleBoss _ g' _ z' err Eu) as (_ & H & _).
  exists g', z', err. split; [reflexivity | apply H; reflexivity].
Defined.

(** X20: the update that completes [bossDeath1] leaves the boss in
    [bossPhase2] having played the death-1 sound only, and the very next
    update selects [bossRunning] from [HitToDie = 2] and the walking inner
    zombie and hands over to the update of the inner zombie: the
    completion of [bossPhase2], where the scream is played, is not
    reached. *)
Theorem Boss_scream_is_skipped (E : BossCollaborators) (g : GameScreen) (z : Boss.t) :
  Dead z = false -> Daemon z = false ->
  Zombie.HitToDie (Zombies g (ZombieRef z)) = 2 ->
  Zombie.State (Zombies g (ZombieRef z)) = Zombie.zombieHit ->
  Animate E (Frame z) (Tick g) (FrameTags E bossDeath1) = To (FrameTags E bossDeath1) ->
  let '(g1, z1, _) := BossUpdate E g z in
  let '(g2, z2, err) := BossUpdate E g1 z1 in
  State z1 = bossPhase2
  /\ Audio g1 = Audio g ++ [OnSound soundBigZombieDeath1 Play]
  /\ State z2 = bossRunning
  /\ (g2, err) = ZombieUpdate E g1 (ZombieRef z).
Proof.
  intros Hd Hda Hh Hs Ha.
  pose (G1 := onZombie
                (onZombie (audio g (OnSound soundBigZombieDeath1 Play)) (ZombieRef z)
                   (fun zz => Zombie.setSpeed zz (zombieSprinterSpeed E * 2)%float))
                (ZombieRef z) (fun zz => Zombie.setState zz Zombie.zombieWalking)).
  pose (Z1 := Boss.Make (ZombieRef z) true bossPhase2 (To (FrameTags E bossDeath1)) false).
  assert (E1 : BossUpdate E g z = (G1, Z1, None)).
  { rewrite (BossUpdate_alive E g z Hd). cbv zeta. rewrite Hda, Hh, Hs.
    change (selectState false 2 Zombie.zombieHit (State z)) with bossDeath1.
    unfold animationComplete. cbn [setState setFrame State Frame].
    rewrite Ha, Z.eqb_refl. unfold outterAnimationBasedStateChanges.
    cbn [setState setFrame setDaemon State Frame ZombieRef Daemon Dead
         animationTags_eqb orb].
    subst G1 Z1. unfold setState, setDaemon, setFrame. cbn [ZombieRef Daemon State Frame Dead].
    rewrite Hd. reflexivity. }
  rewrite E1. cbv iota beta.
  assert (Hin : Zombies G1 (ZombieRef Z1)
                = Zombie.Make 2 Zombie.zombieWalking (zombieSprinterSpeed E * 2)%float
                    (Zombie.Alive (Zombies g (ZombieRef z)))).
  { subst G1 Z1. cbn. rewrite !Nat.eqb_refl. cbn.
    unfold Zombie.setState, Zombie.setSpeed. cbn. rewrite Hh. reflexivity. }
  assert (E2 : BossUpdate E G1 Z1
               = let (g2, err) := ZombieUpdate E G1 (ZombieRef z) in
                 (g2, setFrame (setState Z1 bossRunning)
                        (Animate E (Frame Z1) (Tick G1) (FrameTags E bossRunning)), err)).
  { rewrite (BossUpdate_alive E G1 Z1 eq_refl). cbv zeta. rewrite Hin.
    cbn [Zombie.HitToDie Zombie.State].
    change (Daemon Z1) with true.
    change (selectState true 2 Zombie.zombieWalking (State Z1)) with bossRunning.
    unfold animationComplete, outterAnimationBasedStateChanges.
    cbn [setState setFrame State Frame ZombieRef].
    change (ZombieRef Z1) with (ZombieRef z).
    destruct (Animate E (Frame Z1) (Tick G1) (FrameTags E bossRunning)
              =? To (FrameTags E bossRunning));
      cbn [animationTags_eqb orb State setState setFrame]; reflexivity. }
  rewrite E2. destruct (ZombieUpdate E G1 (ZombieRef z)) as [g2 err].
  repeat split.
Qed.

Lemma Boss_scream_is_skipped_witness :
  let '(g1, z1, _) :=
    BossUpdate instantBoss (bossScreen 2 Zombie.zombieHit) (bossAt bossWalking3 false) in
  let '(g2, z2, err) := BossUpdate instantBoss g1 z1 in
  State z1 = bossPhase2
  /\ Audio g1 = Audio (bossScreen 2 Zombie.zombieHit) ++ [OnSound soundBigZombieDeath1 Play]
  /\ State z2 = bossRunning
  /\ (g2, err) = ZombieUpdate instantBoss g1 (ZombieRef (bossAt bossWalking3 false)).
Proof.
  exact (Boss_scream_is_skipped instantBoss (bossScreen 2 Zombie.zombieHit)
           (bossAt bossWalking3 false) eq_refl eq_refl eq_refl eq_refl eq_refl).
Defined.

(** ** The animation of the dog *)

(** X21: [Dog.animate] keeps the frame inside the frame range of the state
    and cycles through it: outside of every fifth tick the frame stays, on
    every fifth tick it advances by one and goes from the last frame back
    to the first. *)
Theorem dogAnimate_cycles (tick frame : Z) (ft : FrameTag) :
  0 <= From ft -> To ft < int_max -> From ft <= frame <= To ft ->
  dogAnimate tick frame ft
  = Some (if negb (Z.rem tick 5 =? 0) then frame
          else if frame =? To ft then From ft else frame + 1).
Proof.
  intros Hf Ht Hr. unfold dogAnimate.
  destruct (negb (Z.rem tick 5 =? 0)); [reflexivity |].
  destruct (Z.eqb_spec (From ft) (To ft)) as [E | E].
  - destruct (Z.eqb_spec frame (To ft)); [reflexivity | lia].
  - cbv zeta. unfold int_max in Ht.
    rewrite (wrap_small (To ft - From ft)) by (unfold int_min, int_max; lia).
    rewrite (wrap_small (To ft - From ft + 1)) by (unfold int_min, int_max; lia).
    rewrite (wrap_small (frame - From ft)) by (unfold int_min, int_max; lia).
    rewrite (wrap_small (frame - From ft + 1)) by (unfold int_min, int_max; lia).
    destruct (Z.eqb_spec (To ft - From ft + 1) 0) as [Z0 | Z0]; [lia |].
    destruct (Z.eqb_spec frame (To ft)) as [Et | Et].
    + subst frame. rewrite Z.rem_same by lia. cbn [Z.add].
      rewrite (wrap_small 0) by (unfold int_min, int_max; lia).
      rewrite wrap_small by (unfold int_min, int_max; lia). reflexivity.
    + rewrite Z.rem_small by lia.
      rewrite (wrap_small (frame - From ft + 1)) by (unfold int_min, int_max; lia).
      rewrite wrap_small by (unfold int_min, int_max; lia). f_equal. lia.
Qed.

Lemma dogAnimate_cycles_witness :
  dogAnimate 10 6 (MkFrameTag 4 6) = Some 4 /\ dogAnimate 10 5 (MkFrameTag 4 6) = Some 6
  /\ dogAnimate 11 5 (MkFrameTag 4 6) = Some 5.
Proof.
  assert (H0 : 0 <= From (MkFrameTag 4 6)) by (simpl; lia).
  assert (H1 : To (MkFrameTag 4 6) < int_max) by (unfold int_max; simpl; lia).
  split; [| split].
  - apply (dogAnimate_cycles 10 6 (MkFrameTag 4 6) H0 H1). simpl. lia.
  - apply (dogAnimate_cycles 10 5 (MkFrameTag 4 6) H0 H1). simpl. lia.
  - apply (dogAnimate_cycles 11 5 (MkFrameTag 4 6) H0 H1). simpl. lia.
Defined.

(** ** The tileset cache of the tile renderer *)

Section RendererFacts.

Context {Image : Type} (LoadTileset : string -> Image).

Lemma cacheAgrees_perform (er : TileRenderer.t Image) (c : TileRenderer.call) :
  cacheAgrees LoadTileset er ->
  cacheAgrees LoadTileset (TileRenderer.perform LoadTileset er c)
  /\ forall path,
       In path (TileRenderer.Loaded (TileRenderer.perform LoadTileset er c))
       <-> In path (TileRenderer.Loaded er)
           \/ exists w h, c = TileRenderer.callBeginLayer path w h.
Proof.
  intros [Hn Hl]. destruct c as [| path w h].
  - split; [split; assumption |]. intros q. cbn.
    split; [auto | intros [H | (w & h & H)]; [exact H | discriminate H]].
  - unfold TileRenderer.perform, TileRenderer.beginLayer.
    destruct (TileRenderer.lookup (TileRenderer.Tilesets er) path) eqn:E.
    + assert (Hin : In path (TileRenderer.Loaded er)).
      { destruct (in_dec string_dec path (TileRenderer.Loaded er)) as [H | H];
          [exact H |]. apply (Hl path) in H. congruence. }
      split; [split; assumption |]. intros q.
      cbn.
      split; [auto | intros [H | (w' & h' & H)]; [exact H |]].
      injection H as <- _ _. exact Hin.
    + assert (Hnin : ~ In path (TileRenderer.Loaded er)).
      { intros H. apply (Hl path) in H. congruence. }
      unfold cacheAgrees. cbn. split; [split |].
      * apply NoDup_app; [exact Hn | repeat constructor; intros [] |].
        intros a Ha [<- | []]. contradiction.
      * intros q.
        destruct (String.eqb_spec path q) as [<- | Hne].
        -- split; [reflexivity |]. intros N. exfalso. apply N.
           apply in_or_app. right. left. reflexivity.
        -- destruct (Hl q) as [H1 H2]. split.
           ++ intros H. apply in_app_or in H.
              destruct H as [H | [H | []]]; [auto | congruence].
           ++ intros H. apply H2. intros N. apply H. apply in_or_app. left. exact N.
      * intros q. split.
        -- intros H. apply in_app_or in H.
           destruct H as [H | [<- | []]]; [left; exact H | right; eauto].
        -- intros [H | (w' & h' & H)]; apply in_or_app; [left; exact H |].
           injection H as <- _ _. right. left. reflexivity.
Qed.

Lemma cacheAgrees_performAll (cs : list TileRenderer.call) :
  forall er, cacheAgrees LoadTileset er ->
    cacheAgrees LoadTileset (TileRenderer.performAll LoadTileset er cs)
    /\ forall path,
         In path (TileRenderer.Loaded (TileRenderer.performAll LoadTileset er cs))
         <-> In path (TileRenderer.Loaded er)
             \/ exists w h, In (TileRenderer.callBeginLayer path w h) cs.
Proof.
  induction cs as [| c cs IH]; intros er Ha.
  - split; [exact Ha |]. intros q. cbn.
    split; [auto | intros [H | (w & h & [])]; exact H].
  - destruct (cacheAgrees_perform er c Ha) as [Ha1 Hl1].
    destruct (IH _ Ha1) as [Ha2 Hl2].
    split; [exact Ha2 |]. intros q.
    change (TileRenderer.performAll LoadTileset er (c :: cs))
      with (TileRenderer.performAll LoadTileset
              (TileRenderer.perform LoadTileset er c) cs).
    rewrite Hl2, Hl1. split.
    + intros [[H | (w & h & H)] | (w & h & H)];
        [left; exact H | right; exists w, h; left; exact H
        | right; exists w, h; right; exact H].
    + intros [H | (w & h & [H | H])];
        [left; left; exact H | left; right; eauto | right; eauto].
Qed.

(** X22: from a new renderer, after any sequence of [beginLayer] and
    [Clear] calls, every tileset path that a layer used has been loaded
    exactly once, no other path has been loaded, and the cache holds for
    each path what the loader returned for it. *)
Theorem TileRenderer_loads_each_tileset_once (cs : list TileRenderer.call) :
  let er := TileRenderer.performAll LoadTileset TileRenderer.NewTileRenderer cs in
  NoDup (TileRenderer.Loaded er)
  /\ forall path,
       (In path (TileRenderer.Loaded er)
        <-> exists w h, In (TileRenderer.callBeginLayer path w h) cs)
       /\ TileRenderer.lookup (TileRenderer.Tilesets er) path
          = if in_dec string_dec path (TileRenderer.Loaded er)
            then Some (LoadTileset path) else None.
Proof.
  assert (H0 : cacheAgrees LoadTileset TileRenderer.NewTileRenderer).
  { split; [constructor |]. intros path. split; [intros [] | reflexivity]. }
  destruct (cacheAgrees_performAll cs _ H0) as [[Hn Hl] Hi].
  cbv zeta. split; [exact Hn |]. intros path. split.
  - rewrite Hi. split; [intros [[] | H]; exact H | auto].
  - destruct (in_dec string_dec path _) as [H | H]; apply (Hl path); exact H.
Qed.

End RendererFacts.
